(** * The syncing dispatcher of go-filecoin: target queue and dedup set

    A shallow embedding of the [syncer] package's dispatcher file
    ([Dispatcher], [SyncRequest], [rawQueue], [TargetQueue]) together with
    the part of Go's [container/heap] it calls, and the properties of the
    prioritisation and dedup policy. *)

From Stdlib Require Import ZArith NArith Lia List Permutation Sorted.
From stdpp Require Import base tactics option list sorting gmap strings.

Set Default Proof Using "Type".
Local Open Scope Z_scope.

(** ** Data model *)

(** Modelled from the spec: [block.TipSetKey] is declared outside this
    package; the dispatcher only ever calls [String()] on it, so a key is
    represented by its canonical string form. *)
Record TipSetKey := mkTipSetKey { TipSetKey_String : string }.

(** Modelled from the spec: the provenance marker of a chain head
    descriptor (handshake, own block, gossip). *)
Inductive Provenance := FromHello | FromOwnBlock | FromGossip.

(** Modelled from the spec: [block.ChainInfo] is declared outside this
    package: a head, an unsigned height and an origin. *)
Record ChainInfo := mkChainInfo {
  Head : TipSetKey;
  Height : N;
  Origin : Provenance
}.

(** [SyncRequest]: the embedded [block.ChainInfo] and the private [index]
    (a Go [int]). *)
Record SyncRequest := mkSyncRequest {
  SyncRequest_ChainInfo : ChainInfo;
  index : Z
}.

(** The two declared errors; a Go [error] value is [option error], with
    [None] for [nil]. *)
Inductive error := errBadPush | errBadPop.

(** Go's garbage collected heap, restricted to the [SyncRequest] objects:
    an address is a position in the store, [&SyncRequest{...}] appends. A
    [*SyncRequest] is [None] for [nil] or [Some a]. *)
Abbreviation store := (list SyncRequest).
Abbreviation ptr := (option nat).

(** [rawQueue] is [[]*SyncRequest]. *)
Abbreviation rawQueue := (list ptr).

Record TargetQueue := mkTargetQueue { q : rawQueue }.

(** [targetMu] only serialises callers; every method below is one atomic
    step, which is what holding the lock for the whole of [receive] gives. *)
Record Dispatcher := mkDispatcher {
  targetSet : gset string;
  targetQ : TargetQueue
}.

(** ** Methods as state transformers that may panic *)

(** A receiver of type [T] together with the store its pointers live in. *)
Record world (T : Type) := World { mem : store; self : T }.
Arguments World {T} _ _.
Arguments mem {T} _.
Arguments self {T} _.

Inductive outcome (A : Type) := Ret (a : A) | Panicked.
Arguments Ret {A} _.
Arguments Panicked {A}.

(** A method with receiver [T]: whatever was written before a panic stays
    written, so the world is returned in both cases. *)
Definition method (T A : Type) := world T -> outcome A * world T.

Definition ret {T A} (a : A) : method T A := fun w => (Ret a, w).
Definition bind {T A B} (m : method T A) (k : A -> method T B) : method T B :=
  fun w => match m w with
           | (Ret a, w') => k a w'
           | (Panicked, w') => (Panicked, w')
           end.

Declare Scope go_scope.
Delimit Scope go_scope with go.
Notation "x <- m ;; k" := (bind m (fun x => k))
  (at level 100, m at next level, right associativity) : go_scope.
Notation "m ;;; k" := (bind m (fun _ => k))
  (at level 100, right associativity) : go_scope.
Local Open Scope go_scope.

(** [len(rq)] *)
Definition slice_len {A} (l : list A) : Z := Z.of_nat (length l).

(** [rq[i]] as an rvalue: a run-time panic when [i] is out of range. *)
Definition slice_get (i : Z) : method rawQueue ptr := fun w =>
  if (0 <=? i) && (i <? slice_len (self w))
  then match self w !! Z.to_nat i with
       | Some p => (Ret p, w)
       | None => (Panicked, w)
       end
  else (Panicked, w).

(** [rq[i] = p] *)
Definition slice_set (i : Z) (p : ptr) : method rawQueue unit := fun w =>
  if (0 <=? i) && (i <? slice_len (self w))
  then (Ret tt, World (mem w) (<[Z.to_nat i := p]> (self w)))
  else (Panicked, w).

(** [*p]: a nil dereference panics. A non-nil Go pointer always points to
    a live object; an address outside the store is treated like [nil]. *)
Definition load {T} (p : ptr) : method T SyncRequest := fun w =>
  match p with
  | Some a => match mem w !! a with
              | Some r => (Ret r, w)
              | None => (Panicked, w)
              end
  | None => (Panicked, w)
  end.

(** [p.index = v] *)
Definition set_index {T} (p : ptr) (v : Z) : method T unit := fun w =>
  match p with
  | Some a => match mem w !! a with
              | Some r => (Ret tt, World (<[a := mkSyncRequest (SyncRequest_ChainInfo r) v]> (mem w)) (self w))
              | None => (Panicked, w)
              end
  | None => (Panicked, w)
  end.

(** [&SyncRequest{...}]: a fresh object, at the next free address. *)
Definition new_SyncRequest {T} (r : SyncRequest) (w : world T) : ptr * world T :=
  (Some (length (mem w)), World (mem w ++ [r]) (self w)).

(** ** rawQueue *)

Definition rawQueue_Len : method rawQueue Z := fun w =>
  (Ret (slice_len (self w)), w).

(** [return rq[i].Height > rq[j].Height] *)
Definition rawQueue_Less (i j : Z) : method rawQueue bool :=
  pi <- slice_get i ;;
  ri <- load pi ;;
  pj <- slice_get j ;;
  rj <- load pj ;;
  ret (Height (SyncRequest_ChainInfo rj) <? Height (SyncRequest_ChainInfo ri))%N.

(** [rq[i], rq[j] = rq[j], rq[i]; rq[i].index = j; rq[j].index = i]. Both
    right-hand sides are read before either slot is written. *)
Definition rawQueue_Swap (i j : Z) : method rawQueue unit :=
  pj <- slice_get j ;;
  pi <- slice_get i ;;
  slice_set i pj ;;;
  slice_set j pi ;;;
  p <- slice_get i ;;
  set_index p j ;;;
  p' <- slice_get j ;;
  set_index p' i.

(** The type assertion on [x] always succeeds here: [TargetQueue.Push] is
    the only caller and passes a pointer to a [SyncRequest]; a nil pointer
    passes the assertion too and faults at the assignment to [index]. *)
Definition rawQueue_Push (x : ptr) : method rawQueue unit :=
  n <- rawQueue_Len ;;
  set_index x n ;;;
  fun w => (Ret tt, World (mem w) (self w ++ [x])).

(** [old[0 : n-1]] *)
Definition reslice (n : Z) : method rawQueue unit := fun w =>
  if (0 <=? n) && (n <=? slice_len (self w))
  then (Ret tt, World (mem w) (take (Z.to_nat n) (self w)))
  else (Panicked, w).

Definition rawQueue_Pop : method rawQueue ptr :=
  n <- rawQueue_Len ;;
  item <- slice_get (n - 1) ;;
  slice_set (n - 1) None ;;;
  set_index item (-1) ;;;
  reslice (n - 1) ;;;
  ret item.

(** ** container/heap

    [heap.Init], [heap.Push], [heap.Pop] and their loops [up] and [down]
    belong to Go's standard library, not to the repository; they are
    transcribed here from the library's [heap.go], instantiated at
    [rawQueue] for [heap.Interface] (the spec's Priority Structure section
    describes the same two sift loops). Indices are Go [int]s; a slice of
    pointers has fewer than [2^60] slots, so [2*i + 1] never wraps and the
    arithmetic is that of [Z], with [/] truncating ([Z.quot]). *)

(** The [for] loops take their number of iterations as fuel; [None] is a
    loop that has not finished within it. *)
Fixpoint up_loop (fuel : nat) (j : Z) (w : world rawQueue)
  : option (outcome unit * world rawQueue) :=
  match fuel with
  | O => None
  | S fuel' =>
    let i := Z.quot (j - 1) 2 in (* parent *)
    if i =? j then Some (Ret tt, w) else
    match rawQueue_Less j i w with
    | (Panicked, w1) => Some (Panicked, w1)
    | (Ret b, w1) =>
      if negb b then Some (Ret tt, w1) else
      match rawQueue_Swap i j w1 with
      | (Panicked, w2) => Some (Panicked, w2)
      | (Ret _, w2) => up_loop fuel' i w2
      end
    end
  end.

Fixpoint down_loop (fuel : nat) (i0 i n : Z) (w : world rawQueue)
  : option (outcome bool * world rawQueue) :=
  match fuel with
  | O => None
  | S fuel' =>
    let j1 := 2 * i + 1 in
    if (j1 >=? n) || (j1 <? 0) then Some (Ret (i0 <? i), w) else
    let j2 := j1 + 1 in
    match (if j2 <? n then rawQueue_Less j2 j1 w else (Ret false, w)) with
    | (Panicked, w1) => Some (Panicked, w1)
    | (Ret r, w1) =>
      let j := if r then j2 else j1 in (* the larger child *)
      match rawQueue_Less j i w1 with
      | (Panicked, w2) => Some (Panicked, w2)
      | (Ret b, w2) =>
        if negb b then Some (Ret (i0 <? i), w2) else
        match rawQueue_Swap i j w2 with
        | (Panicked, w3) => Some (Panicked, w3)
        | (Ret _, w3) => down_loop fuel' i0 j n w3
        end
      end
    end
  end.

(** Each iteration of [up] halves [j] and each iteration of [down] moves
    [i] towards [n], so this much fuel is never used up ([up_loop_total],
    [down_loop_total]); the [None] branches below are dead. *)
Definition up (j : Z) : method rawQueue unit := fun w =>
  match up_loop (S (Z.to_nat j)) j w with
  | Some r => r
  | None => (Panicked, w)
  end.

Definition down (i0 n : Z) : method rawQueue bool := fun w =>
  match down_loop (S (Z.to_nat (n - i0))) i0 i0 n w with
  | Some r => r
  | None => (Panicked, w)
  end.

(** [for i := n/2 - 1; i >= 0; i-- { down(h, i, n) }], with [c] the number
    of iterations left. *)
Fixpoint heapify (c : nat) (n : Z) : method rawQueue unit :=
  match c with
  | O => ret tt
  | S c' => down (Z.of_nat c') n ;;; heapify c' n
  end.

Definition heap_Init : method rawQueue unit :=
  n <- rawQueue_Len ;;
  heapify (Z.to_nat (Z.quot n 2)) n.

Definition heap_Push (x : ptr) : method rawQueue unit :=
  rawQueue_Push x ;;;
  n <- rawQueue_Len ;;
  up (n - 1).

Definition heap_Pop : method rawQueue ptr :=
  len <- rawQueue_Len ;;
  let n := len - 1 in
  rawQueue_Swap 0 n ;;;
  down 0 n ;;;
  rawQueue_Pop.

(** ** TargetQueue *)

(** Running a [rawQueue] method on the field [q]. *)
Definition on_q {A} (f : method rawQueue A) : method TargetQueue A := fun w =>
  let '(r, w') := f (World (mem w) (q (self w))) in
  (r, World (mem w') (mkTargetQueue (self w'))).

(** [make(rawQueue, 0)] followed by [heap.Init]. *)
Definition NewTargetQueue (m : store) : world TargetQueue :=
  snd (on_q heap_Init (World m (mkTargetQueue []))).

(** The deferred [recover] turns a panic of [heap.Push] into [errBadPush]. *)
Definition TargetQueue_Push (req : ptr) (w : world TargetQueue)
  : option error * world TargetQueue :=
  match on_q (heap_Push req) w with
  | (Ret _, w') => (None, w')
  | (Panicked, w') => (Some errBadPush, w')
  end.

(** The deferred [recover] turns a panic of [heap.Pop] into a nil request
    and [errBadPop]. *)
Definition TargetQueue_Pop (w : world TargetQueue)
  : (ptr * option error) * world TargetQueue :=
  match on_q heap_Pop w with
  | (Ret req, w') => ((req, None), w')
  | (Panicked, w') => ((None, Some errBadPop), w')
  end.

Definition TargetQueue_Len (w : world TargetQueue) : Z :=
  slice_len (q (self w)).

(** ** Dispatcher *)

Definition NewDispatcher (m : store) : world Dispatcher :=
  let w := NewTargetQueue m in
  World (mem w) (mkDispatcher ∅ (self w)).

(** Running a [TargetQueue] operation on the field [targetQ]. *)
Definition on_targetQ {A} (f : world TargetQueue -> A * world TargetQueue)
  : world Dispatcher -> A * world Dispatcher := fun w =>
  let '(r, w') := f (World (mem w) (targetQ (self w))) in
  (r, World (mem w') (mkDispatcher (targetSet (self w)) (self w'))).

Definition receive (ci : ChainInfo) (w : world Dispatcher)
  : option error * world Dispatcher :=
  let key := TipSetKey_String (Head ci) in
  if decide (key ∈ targetSet (self w)) then
    (* already tracking drop quickly *)
    (None, w)
  else
    let '(req, w1) := new_SyncRequest (mkSyncRequest ci 0) w in
    match on_targetQ (TargetQueue_Push req) w1 with
    | (Some err, w2) => (Some err, w2)
    | (None, w2) =>
      (None, World (mem w2)
                   (mkDispatcher ({[key]} ∪ targetSet (self w2)) (targetQ (self w2))))
    end.

Definition ReceiveHello (ci : ChainInfo) := receive ci.
Definition ReceiveOwnBlock (ci : ChainInfo) := receive ci.
Definition ReceiveGossipBlock (ci : ChainInfo) := receive ci.

(** ** The binary heap order on an array seen as a function of its index *)

Module HeapOrder.

(** [c] is the left or the right child of slot [p]. *)
Definition child (p c : Z) : Prop := c = 2 * p + 1 \/ c = 2 * p + 2.

(** Max-heap order on the slots [0 .. n-1]. *)
Definition heap (f : Z -> N) (n : Z) : Prop :=
  forall p c, 0 <= p -> child p c -> c < n -> (f c <= f p)%N.

(** The order with a hole at slot [x] seen from below: every pair is in
    order except possibly [x] and its parent, and the children of [x]
    are in order with the parent of [x]. *)
Definition up_inv (f : Z -> N) (n x : Z) : Prop :=
  (forall p c, 0 <= p -> child p c -> c < n -> c <> x -> (f c <= f p)%N) /\
  (forall g c, 0 <= g -> child g x -> child x c -> c < n -> (f c <= f g)%N).

(** The order with a hole at slot [x] seen from above: every pair is in
    order except possibly [x] and its children, and the children of [x]
    are in order with the parent of [x]. *)
Definition down_inv (f : Z -> N) (n x : Z) : Prop :=
  (forall p c, 0 <= p -> child p c -> c < n -> p <> x -> (f c <= f p)%N) /\
  (forall g c, 0 <= g -> child g x -> child x c -> c < n -> (f c <= f g)%N).

(** The array after slots [i] and [j] have been exchanged. *)
Definition exchanged (f f' : Z -> N) (i j : Z) : Prop :=
  forall c, 0 <= c ->
    f' c = if c =? i then f j else if c =? j then f i else f c.

End HeapOrder.

(** ** Well-formed queues and the heights they hold *)

(** A pointer that is not nil (and, as every Go pointer, not dangling). *)
Definition live (m : store) (p : ptr) : Prop :=
  exists a r, p = Some a /\ m !! a = Some r.

Definition wf (m : store) (l : rawQueue) : Prop := Forall (live m) l.

(** [p.Height], read through the store. *)
Definition keyp (m : store) (p : ptr) : N :=
  match p with
  | Some a => match m !! a with
              | Some r => Height (SyncRequest_ChainInfo r)
              | None => 0
              end
  | None => 0
  end.

(** [rq[c].Height] *)
Definition kf (m : store) (l : rawQueue) (c : Z) : N :=
  keyp m (default None (l !! Z.to_nat c)).

(** The max-heap invariant of the backing array. *)
Definition heap_ok (m : store) (l : rawQueue) : Prop :=
  HeapOrder.heap (kf m l) (slice_len l).

(** Two stores that differ in [index] fields only. *)
Definition same_ci (m m' : store) : Prop :=
  forall a, SyncRequest_ChainInfo <$> (m' !! a) = SyncRequest_ChainInfo <$> (m !! a).

(** ** TargetQueue: the invariant and what Push and Pop return *)

(** Every slot holds a live request, and the slots are in max-heap order. *)
Definition tq_inv (w : world TargetQueue) : Prop :=
  wf (mem w) (q (self w)) /\ heap_ok (mem w) (q (self w)).

(** What a caller can pass for a [*SyncRequest]: nil, or a pointer to an
    allocated request. *)
Definition valid_ptr (m : store) (p : ptr) : Prop :=
  match p with
  | None => True
  | Some a => is_Some (m !! a)
  end.

(** *** The states a queue can be in *)

Inductive tq_step : world TargetQueue -> world TargetQueue -> Prop :=
  | step_new w r :
      tq_step w (snd (new_SyncRequest r w))
  | step_Push w p :
      valid_ptr (mem w) p -> tq_step w (snd (TargetQueue_Push p w))
  | step_Pop w :
      tq_step w (snd (TargetQueue_Pop w)).

Inductive tq_reachable : world TargetQueue -> Prop :=
  | reach_New m : tq_reachable (NewTargetQueue m)
  | reach_step w w' : tq_reachable w -> tq_step w w' -> tq_reachable w'.

(** *** Draining a queue *)

(** The consumer's loop, [for tq.Len() > 0 { req, err := tq.Pop() ... }],
    collecting what each [Pop] returned; [None] is a loop that has not
    finished within the fuel. *)
Fixpoint drain_loop (fuel : nat) (w : world TargetQueue)
  : option (list (ptr * option error) * world TargetQueue) :=
  match fuel with
  | O => None
  | S fuel' =>
    if 0 <? TargetQueue_Len w then
      let '(r, w') := TargetQueue_Pop w in
      match drain_loop fuel' w' with
      | Some (rs, w'') => Some (r :: rs, w'')
      | None => None
      end
    else Some ([], w)
  end.

Definition drain (w : world TargetQueue) :=
  drain_loop (S (length (q (self w)))) w.

(** The heights of the requests a drain returned, read after the drain. *)
Definition popped_heights (m : store) (rs : list (ptr * option error)) : list N :=
  map (fun r => keyp m (fst r)) rs.

(** The heights held by a queue, slot by slot. *)
Definition heights (w : world TargetQueue) : list N :=
  map (keyp (mem w)) (q (self w)).

Definition non_increasing (l : list N) : Prop :=
  StronglySorted (fun x y => (y <= x)%N) l.

(** ** Dispatcher *)

(** The dispatcher's queue, with the store its requests live in. *)
Definition tq_of (w : world Dispatcher) : world TargetQueue :=
  World (mem w) (targetQ (self w)).

(** [ci.Head.String()] *)
Definition key (ci : ChainInfo) : string := TipSetKey_String (Head ci).

(** The three public entry points. *)
Inductive entry := Hello | OwnBlock | GossipBlock.

Definition call (e : entry)
  : ChainInfo -> world Dispatcher -> option error * world Dispatcher :=
  match e with
  | Hello => ReceiveHello
  | OwnBlock => ReceiveOwnBlock
  | GossipBlock => ReceiveGossipBlock
  end.

(** A run of submissions, one entry point and one descriptor at a time. *)
Fixpoint submit_all (subs : list (entry * ChainInfo)) (w : world Dispatcher)
  : list (option error) * world Dispatcher :=
  match subs with
  | [] => ([], w)
  | (e, ci) :: rest =>
    let '(err, w1) := call e ci w in
    let '(errs, w2) := submit_all rest w1 in
    (err :: errs, w2)
  end.

(** [d.targetQ.Pop()], the consumer's call. *)
Definition pop_target : world Dispatcher -> (ptr * option error) * world Dispatcher :=
  on_targetQ TargetQueue_Pop.

(** *** What a caller of the dispatcher can observe *)

(** The states reached from a new dispatcher by submissions and pops,
    with the number of requests popped so far. *)
Inductive observed : world Dispatcher -> nat -> Prop :=
  | obs_New m : observed (NewDispatcher m) 0
  | obs_receive w k e ci :
      observed w k -> observed (snd (call e ci w)) k
  | obs_Pop w k req w' :
      observed w k -> pop_target w = ((req, None), w') -> observed w' (S k)
  | obs_bad_Pop w k req err w' :
      observed w k -> pop_target w = ((req, Some err), w') -> observed w' k.

(** ** The heap invariant, slot by slot *)

(** Every queued request is at least as high as both of its children in
    the backing array. *)
Definition max_heap (w : world TargetQueue) : Prop :=
  forall (p c : nat) ap ac rp rc,
    (c = 2 * p + 1 \/ c = 2 * p + 2)%nat ->
    q (self w) !! p = Some (Some ap) -> mem w !! ap = Some rp ->
    q (self w) !! c = Some (Some ac) -> mem w !! ac = Some rc ->
    (Height (SyncRequest_ChainInfo rc) <= Height (SyncRequest_ChainInfo rp))%N.

(** ** The position token, slot by slot *)

(** Every queued request carries the number of the slot it is in. *)
Definition tokens_accurate (w : world TargetQueue) : Prop :=
  forall (i : nat) a r,
    q (self w) !! i = Some (Some a) -> mem w !! a = Some r ->
    index r = Z.of_nat i.

(** ** A few concrete worlds *)

Module Examples.

Definition ciA10 := mkChainInfo (mkTipSetKey "A") 10 FromHello.
Definition ciA100 := mkChainInfo (mkTipSetKey "A") 100 FromHello.
Definition low := mkChainInfo (mkTipSetKey "low") 1 FromGossip.
Definition high := mkChainInfo (mkTipSetKey "high") 5 FromGossip.

(** Heights 5, 9, 1, 20, 3 under five heads, over the three entry points. *)
Definition five : list (entry * ChainInfo) :=
  [ (Hello, mkChainInfo (mkTipSetKey "a") 5 FromHello);
    (OwnBlock, mkChainInfo (mkTipSetKey "b") 9 FromOwnBlock);
    (GossipBlock, mkChainInfo (mkTipSetKey "c") 1 FromGossip);
    (Hello, mkChainInfo (mkTipSetKey "d") 20 FromHello);
    (GossipBlock, mkChainInfo (mkTipSetKey "e") 3 FromGossip) ].

(** A queue built by a caller: two requests allocated and pushed. *)
Definition tq0 := NewTargetQueue [].
Definition tq1 := snd (new_SyncRequest (mkSyncRequest low 0) tq0).
Definition tq2 := snd (TargetQueue_Push (Some 0%nat) tq1).
Definition tq3 := snd (new_SyncRequest (mkSyncRequest high 0) tq2).
Definition tq4 := snd (TargetQueue_Push (Some 1%nat) tq3).

(** A dispatcher whose queue was tampered with from inside the package:
    its only slot is nil. *)
Definition tampered : world Dispatcher :=
  World [] (mkDispatcher ∅ (mkTargetQueue [None])).

(** A dispatcher after one submission and one pop. *)
Definition d1 := snd (ReceiveHello ciA100 (NewDispatcher [])).
Definition d2 := snd (pop_target d1).

(** A dispatcher after the submissions of heights 1 and then 5. *)
Definition d_low_high :=
  snd (submit_all [(Hello, low); (GossipBlock, high)] (NewDispatcher [])).

End Examples.

(** ** The descriptors a queue holds *)

(** [p.ChainInfo], read through the store. *)
Definition ci_of (m : store) (p : ptr) : option ChainInfo :=
  match p with
  | Some a => SyncRequest_ChainInfo <$> m !! a
  | None => None
  end.

(** The descriptors of the queued requests, slot by slot. *)
Definition queued (w : world TargetQueue) : list ChainInfo :=
  omap (ci_of (mem w)) (q (self w)).

(** The descriptors of the requests a drain returned. *)
Definition popped_descriptors (m : store) (rs : list (ptr * option error))
  : list ChainInfo :=
  omap (ci_of m) (map fst rs).

(** A method that writes nothing but position tokens: no request is
    allocated or dropped and no [ChainInfo] changes. *)
Definition writes_tokens_only {T A} (f : method T A) : Prop :=
  forall w, same_ci (mem w) (mem (snd (f w))).

(** ** More concrete worlds *)

Module Scenarios.

(** Two requests, each queued in the slot of its own number. *)
Definition two_mem : store :=
  [mkSyncRequest Examples.low 0; mkSyncRequest Examples.high 1].
Definition two_slots : world rawQueue := World two_mem [Some 0%nat; Some 1%nat].

(** A third request, higher than both, allocated beside the queue
    [Examples.tq4] and not yet pushed. *)
Definition top := mkChainInfo (mkTipSetKey "top") 7 FromOwnBlock.
Definition tq5 := snd (new_SyncRequest (mkSyncRequest top 0) Examples.tq4).

(** Three submissions under three heads. *)
Definition three : list (entry * ChainInfo) :=
  [ (Hello, Examples.low); (OwnBlock, top); (GossipBlock, Examples.high) ].
Definition d3 := snd (submit_all three (NewDispatcher [])).

End Scenarios.

(** * Proofs *)

(** ** Facts about the heap order *)

Module HeapOrderFacts.
Import HeapOrder.
Section order.
Context (f : Z -> N).

Lemma parent_child (j : Z) : 1 <= j -> child (Z.quot (j - 1) 2) j.
Proof.
  intros Hj. unfold child.
  rewrite Z.quot_div_nonneg by lia.
  pose proof (Z.div_mod (j - 1) 2 ltac:(lia)).
  pose proof (Z.mod_pos_bound (j - 1) 2 ltac:(lia)). lia.
Qed.

Lemma parent_bounds (j : Z) :
  1 <= j -> 0 <= Z.quot (j - 1) 2 < j.
Proof.
  intros Hj. destruct (parent_child j Hj) as [H|H]; revert H;
    generalize (Z.quot (j - 1) 2); intros; lia.
Qed.


Lemma up_inv_root (n : Z) : up_inv f n 0 -> heap f n.
Proof.
  intros [H _] p c Hp Hc Hn. apply H; try done. unfold child in Hc. lia.
Qed.

Lemma up_inv_stop (n j i : Z) :
  0 <= i -> child i j -> (f j <= f i)%N -> up_inv f n j -> heap f n.
Proof.
  intros Hi Hij Hle [H _] p c Hp Hc Hn.
  destruct (decide (c = j)) as [->|Hne]; [|by apply H].
  replace p with i by (unfold child in *; lia). done.
Qed.

Lemma down_inv_leaf (n i : Z) : n <= 2 * i + 1 -> down_inv f n i -> heap f n.
Proof.
  intros Hleaf [H _] p c Hp Hc Hn. apply H; try done.
  unfold child in Hc. lia.
Qed.

Lemma down_inv_stop (n i j : Z) :
  0 <= i -> child i j ->
  (forall c, child i c -> c < n -> (f c <= f j)%N) ->
  (f j <= f i)%N -> down_inv f n i -> heap f n.
Proof.
  intros Hi Hij Hbig Hle [H _] p c Hp Hc Hn.
  destruct (decide (p = i)) as [->|Hne]; [|by apply H].
  transitivity (f j); [by apply Hbig | done].
Qed.

(** The root of a heap is a greatest element. *)
Lemma heap_root_max (n : Z) : heap f n -> forall c, 0 <= c < n -> (f c <= f 0)%N.
Proof.
  intros H c [Hc Hn]. revert c Hc Hn.
  refine (Zlt_0_ind (fun c => c < n -> (f c <= f 0)%N) _).
  intros c IH Hc Hn.
  destruct (decide (c = 0)) as [->|Hne]; [done|].
  pose proof (parent_bounds c ltac:(lia)) as Hb.
  pose proof (parent_child c ltac:(lia)) as Hch.
  transitivity (f (Z.quot (c - 1) 2)).
  - apply H; [lia | done | done].
  - apply IH; lia.
Qed.

End order.

Lemma up_inv_step (f f' : Z -> N) (n i j : Z) :
  0 <= i -> child i j -> j < n ->
  (f i < f j)%N -> exchanged f f' i j ->
  up_inv f n j -> up_inv f' n i.
Proof.
  intros Hi Hij Hjn Hlt Hex [H1 H2]. split.
  - intros p c Hp Hc Hn Hci.
    rewrite (Hex c), (Hex p) by (unfold child in *; lia).
    destruct (Z.eqb_spec c i) as [->|Hc_i]; [done|].
    destruct (Z.eqb_spec p i) as [->|Hp_i].
    + destruct (Z.eqb_spec c j) as [->|Hc_j]; [lia|].
      transitivity (f i); [by apply H1 | lia].
    + destruct (Z.eqb_spec c j) as [->|Hc_j].
      { unfold child in *; lia. }
      destruct (Z.eqb_spec p j) as [->|Hp_j]; [|by apply H1].
      by apply (H2 i c).
  - intros g c Hg Hgi Hic Hn.
    rewrite (Hex c), (Hex g) by (unfold child in *; lia).
    destruct (Z.eqb_spec c i) as [->|Hc_i]; [unfold child in *; lia|].
    destruct (Z.eqb_spec g i) as [->|Hg_i]; [unfold child in *; lia|].
    destruct (Z.eqb_spec g j) as [->|Hg_j]; [unfold child in *; lia|].
    destruct (Z.eqb_spec c j) as [->|Hc_j].
    + apply H1; [done | done | unfold child in *; lia | unfold child in *; lia].
    + transitivity (f i).
      * apply H1; [done | done | done | done].
      * apply H1; [done | done | unfold child in *; lia | unfold child in *; lia].
Qed.

Lemma down_inv_step (f f' : Z -> N) (n i j : Z) :
  0 <= i -> child i j -> j < n ->
  (forall c, child i c -> c < n -> (f c <= f j)%N) ->
  (f i < f j)%N -> exchanged f f' i j ->
  down_inv f n i -> down_inv f' n j.
Proof.
  intros Hi Hij Hjn Hbig Hlt Hex [H1 H2]. split.
  - intros p c Hp Hc Hn Hpj.
    rewrite (Hex c), (Hex p) by (unfold child in *; lia).
    destruct (Z.eqb_spec p j) as [->|_]; [done|].
    destruct (Z.eqb_spec p i) as [->|Hp_i].
    + destruct (Z.eqb_spec c i) as [->|Hc_i]; [unfold child in *; lia|].
      destruct (Z.eqb_spec c j) as [->|Hc_j]; [lia|].
      by apply Hbig.
    + destruct (Z.eqb_spec c i) as [->|Hc_i].
      * by apply (H2 p j).
      * destruct (Z.eqb_spec c j) as [->|Hc_j]; [unfold child in *; lia|].
        by apply H1.
  - intros g c Hg Hgj Hjc Hn.
    replace g with i by (unfold child in *; lia).
    rewrite (Hex c), (Hex i) by (unfold child in *; lia).
    rewrite Z.eqb_refl.
    destruct (Z.eqb_spec c i) as [->|Hc_i]; [unfold child in *; lia|].
    destruct (Z.eqb_spec c j) as [->|Hc_j]; [unfold child in *; lia|].
    apply H1; [unfold child in *; lia | done | done | unfold child in *; lia].
Qed.

End HeapOrderFacts.

(** ** Stores that differ in position tokens only *)

Lemma same_ci_refl m : same_ci m m.
Proof. by intros a. Qed.

Lemma same_ci_trans m1 m2 m3 : same_ci m1 m2 -> same_ci m2 m3 -> same_ci m1 m3.
Proof. intros H12 H23 a. by rewrite H23, H12. Qed.

Lemma same_ci_set_index (m : store) a r v :
  m !! a = Some r ->
  same_ci m (<[a := mkSyncRequest (SyncRequest_ChainInfo r) v]> m).
Proof.
  intros Ha b. destruct (decide (a = b)) as [->|Hne].
  - rewrite list_lookup_insert_eq by (by eapply lookup_lt_Some). by rewrite Ha.
  - by rewrite list_lookup_insert_ne.
Qed.

Lemma same_ci_keyp m m' p : same_ci m m' -> keyp m' p = keyp m p.
Proof.
  intros H. destruct p as [a|]; [|done]. simpl.
  specialize (H a). destruct (m' !! a), (m !! a); simplify_eq/=; congruence.
Qed.

Lemma same_ci_live m m' p : same_ci m m' -> live m p -> live m' p.
Proof.
  intros H (a & r & -> & Ha). specialize (H a). rewrite Ha in H.
  destruct (m' !! a) as [r'|] eqn:E; [|done]. by exists a, r'.
Qed.

Lemma same_ci_wf m m' l : same_ci m m' -> wf m l -> wf m' l.
Proof. intros H Hwf. eapply Forall_impl; [exact Hwf|]. intros p. by apply same_ci_live. Qed.

Lemma same_ci_kf m m' l c : same_ci m m' -> kf m' l c = kf m l c.
Proof. intros H. by apply same_ci_keyp. Qed.


Lemma wf_lookup m l i :
  wf m l -> 0 <= i < slice_len l ->
  exists a r, l !! Z.to_nat i = Some (Some a) /\ m !! a = Some r.
Proof.
  intros Hwf Hi. unfold slice_len in Hi.
  destruct (lookup_lt_is_Some_2 l (Z.to_nat i)) as [p Hp]; [lia|].
  destruct (Forall_lookup_1 _ _ _ _ Hwf Hp) as (a & r & -> & Ha). eauto.
Qed.

Lemma kf_lookup m l i a r :
  l !! Z.to_nat i = Some (Some a) -> m !! a = Some r ->
  kf m l i = Height (SyncRequest_ChainInfo r).
Proof. intros Hl Ha. unfold kf. rewrite Hl. simpl. by rewrite Ha. Qed.

(** ** What the primitives do on a well-formed queue *)

Lemma in_range_true (i n : Z) : 0 <= i < n -> (0 <=? i) && (i <? n) = true.
Proof. intros. apply andb_true_intro. split; [apply Z.leb_le | apply Z.ltb_lt]; lia. Qed.

Lemma slice_get_ok m (l : rawQueue) i p :
  0 <= i -> l !! Z.to_nat i = Some p ->
  slice_get i (World m l) = (Ret p, World m l).
Proof.
  intros Hi Hp. unfold slice_get. simpl.
  rewrite in_range_true, Hp; [done|].
  apply lookup_lt_Some in Hp. unfold slice_len. lia.
Qed.

Lemma slice_set_ok m (l : rawQueue) i p :
  0 <= i < slice_len l ->
  slice_set i p (World m l) = (Ret tt, World m (<[Z.to_nat i := p]> l)).
Proof. intros Hi. unfold slice_set. simpl. by rewrite in_range_true. Qed.

Lemma set_index_ok {T} m (s : T) a r v :
  m !! a = Some r ->
  set_index (Some a) v (World m s)
  = (Ret tt, World (<[a := mkSyncRequest (SyncRequest_ChainInfo r) v]> m) s).
Proof. intros Ha. unfold set_index. simpl. by rewrite Ha. Qed.

Lemma Less_ok m l i j :
  wf m l -> 0 <= i < slice_len l -> 0 <= j < slice_len l ->
  rawQueue_Less i j (World m l) = (Ret (kf m l j <? kf m l i)%N, World m l).
Proof.
  intros Hwf Hi Hj.
  destruct (wf_lookup m l i Hwf Hi) as (ai & ri & Hli & Hai).
  destruct (wf_lookup m l j Hwf Hj) as (aj & rj & Hlj & Haj).
  unfold rawQueue_Less, bind.
  rewrite (slice_get_ok _ _ _ _ (proj1 Hi) Hli).
  unfold load at 1. simpl. rewrite Hai.
  rewrite (slice_get_ok _ _ _ _ (proj1 Hj) Hlj).
  unfold load. simpl. rewrite Haj. unfold ret.
  by rewrite (kf_lookup _ _ _ _ _ Hli Hai), (kf_lookup _ _ _ _ _ Hlj Haj).
Qed.

(** The exchange leaves a permuted, still well-formed queue, over a store
    in which only [index] fields changed. *)
Lemma Swap_ok m l i j :
  wf m l -> 0 <= i < slice_len l -> 0 <= j < slice_len l ->
  exists pi pj m',
    l !! Z.to_nat i = Some pi /\ l !! Z.to_nat j = Some pj /\
    rawQueue_Swap i j (World m l)
    = (Ret tt, World m' (<[Z.to_nat j := pi]> (<[Z.to_nat i := pj]> l))) /\
    same_ci m m'.
Proof.
  intros Hwf Hi Hj.
  destruct (wf_lookup m l i Hwf Hi) as (ai & ri & Hli & Hai).
  destruct (wf_lookup m l j Hwf Hj) as (aj & rj & Hlj & Haj).
  set (l1 := <[Z.to_nat i := Some aj]> l).
  set (l2 := <[Z.to_nat j := Some ai]> l1).
  assert (Hlen1 : slice_len l1 = slice_len l).
  { unfold slice_len, l1. by rewrite length_insert. }
  assert (Hl2i : l2 !! Z.to_nat i = Some (Some aj)).
  { unfold l2, l1. destruct (decide (Z.to_nat j = Z.to_nat i)) as [E|E].
    - rewrite E, list_insert_insert_eq.
      rewrite list_lookup_insert_eq by (unfold slice_len in *; lia).
      rewrite E in Hlj. congruence.
    - rewrite list_lookup_insert_ne by done.
      by rewrite list_lookup_insert_eq by (unfold slice_len in *; lia). }
  assert (Hl2j : l2 !! Z.to_nat j = Some (Some ai)).
  { unfold l2. rewrite list_lookup_insert_eq; [done|].
    unfold l1. rewrite length_insert. unfold slice_len in *. lia. }
  set (m1 := <[aj := mkSyncRequest (SyncRequest_ChainInfo rj) j]> m).
  assert (H1 : same_ci m m1) by by apply same_ci_set_index.
  assert (exists ri', m1 !! ai = Some ri') as [ri' Hai'].
  { destruct (same_ci_live m m1 (Some ai) H1) as (a & r & [= <-] & Hr); eauto.
    by exists ai, ri. }
  exists (Some ai), (Some aj), (<[ai := mkSyncRequest (SyncRequest_ChainInfo ri') i]> m1).
  split; [done|]. split; [done|]. split.
  - unfold rawQueue_Swap, bind.
    rewrite (slice_get_ok _ _ _ _ (proj1 Hj) Hlj).
    rewrite (slice_get_ok _ _ _ _ (proj1 Hi) Hli).
    rewrite (slice_set_ok _ _ _ _ Hi). fold l1.
    rewrite (slice_set_ok m l1 j) by lia. fold l2.
    rewrite (slice_get_ok _ _ _ _ (proj1 Hi) Hl2i).
    rewrite (set_index_ok _ _ _ _ _ Haj). fold m1.
    rewrite (slice_get_ok _ _ _ _ (proj1 Hj) Hl2j).
    by rewrite (set_index_ok _ _ _ _ _ Hai').
  - eapply same_ci_trans; [exact H1|]. by apply same_ci_set_index.
Qed.

Lemma swapped_wf m m' l i j pi pj :
  wf m l -> same_ci m m' ->
  l !! i = Some pi -> l !! j = Some pj ->
  wf m' (<[j := pi]> (<[i := pj]> l)).
Proof.
  intros Hwf Hci Hi Hj.
  pose proof (Forall_lookup_1 _ _ _ _ Hwf Hi).
  pose proof (Forall_lookup_1 _ _ _ _ Hwf Hj).
  apply Forall_insert; [apply Forall_insert|].
  - by apply (same_ci_wf m).
  - by apply (same_ci_live m).
  - by apply (same_ci_live m).
Qed.

Lemma swapped_exchanged m m' l i j pi pj :
  same_ci m m' -> 0 <= i -> 0 <= j ->
  l !! Z.to_nat i = Some pi -> l !! Z.to_nat j = Some pj ->
  HeapOrder.exchanged (kf m l)
    (kf m' (<[Z.to_nat j := pi]> (<[Z.to_nat i := pj]> l))) i j.
Proof.
  intros Hci Hi0 Hj0 Hi Hj c Hc.
  rewrite (same_ci_kf m m') by done. unfold kf.
  pose proof (lookup_lt_Some _ _ _ Hi). pose proof (lookup_lt_Some _ _ _ Hj).
  destruct (Z.eqb_spec c i) as [->|Hci'].
  - destruct (decide (Z.to_nat j = Z.to_nat i)) as [E|E].
    + rewrite E, list_insert_insert_eq, list_lookup_insert_eq by lia.
      by rewrite Hi.
    + rewrite list_lookup_insert_ne by done.
      rewrite list_lookup_insert_eq by lia. by rewrite Hj.
  - destruct (Z.eqb_spec c j) as [->|Hcj].
    + rewrite list_lookup_insert_eq by (rewrite length_insert; lia).
      by rewrite Hi.
    + by rewrite !list_lookup_insert_ne by lia.
Qed.

(** ** The loops of container/heap *)

Lemma slice_get_ret i (w w' : world rawQueue) p :
  slice_get i w = (Ret p, w') -> 0 <= i < slice_len (self w).
Proof.
  unfold slice_get.
  destruct (0 <=? i) eqn:E1; [|done]. destruct (i <? slice_len (self w)) eqn:E2; [|done].
  intros _. apply Z.leb_le in E1. apply Z.ltb_lt in E2. lia.
Qed.

Lemma Less_ret i j (w w' : world rawQueue) b :
  rawQueue_Less i j w = (Ret b, w') -> 0 <= i < slice_len (self w).
Proof.
  unfold rawQueue_Less, bind.
  destruct (slice_get i w) as [[p|] w1] eqn:E; [|done].
  intros _. by eapply slice_get_ret.
Qed.

(** [up] always leaves its loop: the fuel it is given is enough, whatever
    the queue holds. *)
Lemma up_loop_total fuel j w :
  (Z.to_nat j < fuel)%nat -> is_Some (up_loop fuel j w).
Proof.
  revert j w. induction fuel as [|fuel IH]; intros j w Hfuel; [lia|].
  simpl. destruct (Z.eqb_spec (Z.quot (j - 1) 2) j) as [E|E]; [by eexists|].
  destruct (rawQueue_Less j (Z.quot (j - 1) 2) w) as [[b|] w1] eqn:HL; [|by eexists].
  destruct b; simpl; [|by eexists].
  destruct (rawQueue_Swap (Z.quot (j - 1) 2) j w1) as [[[]|] w2]; [|by eexists].
  apply IH. apply Less_ret in HL.
  assert (1 <= j) as Hj.
  { destruct (decide (j = 0)) as [->|]; [done|lia]. }
  pose proof (HeapOrderFacts.parent_bounds j Hj). lia.
Qed.

Lemma down_loop_total fuel i0 i n w :
  (Z.to_nat (n - i) < fuel)%nat -> is_Some (down_loop fuel i0 i n w).
Proof.
  revert i w. induction fuel as [|fuel IH]; intros i w Hfuel; [lia|].
  simpl.
  destruct (Z.geb_spec (2 * i + 1) n) as [E1|E1]; simpl; [by eexists|].
  destruct (Z.ltb_spec (2 * i + 1) 0) as [E2|E2]; [by eexists|].
  destruct (Z.ltb_spec (2 * i + 1 + 1) n) as [E3|E3].
  - destruct (rawQueue_Less _ _ w) as [[r|] w1]; [|by eexists].
    destruct (rawQueue_Less _ i w1) as [[b|] w2]; [|by eexists].
    destruct b; simpl; [|by eexists].
    destruct (rawQueue_Swap i _ w2) as [[[]|] w3]; [|by eexists].
    apply IH. destruct r; lia.
  - destruct (rawQueue_Less _ i w) as [[b|] w2]; [|by eexists].
    destruct b; simpl; [|by eexists].
    destruct (rawQueue_Swap i _ w2) as [[[]|] w3]; [|by eexists].
    apply IH. lia.
Qed.

Lemma slice_len_perm (l l' : rawQueue) : l' ≡ₚ l -> slice_len l' = slice_len l.
Proof. intros H. unfold slice_len. by rewrite H. Qed.

(** Sifting up from a hole at [j] restores the heap order. *)
Lemma up_loop_ok fuel j m l :
  wf m l -> 0 <= j < slice_len l -> (Z.to_nat j < fuel)%nat ->
  exists m' l',
    up_loop fuel j (World m l) = Some (Ret tt, World m' l') /\
    wf m' l' /\ same_ci m m' /\ l' ≡ₚ l /\
    (HeapOrder.up_inv (kf m l) (slice_len l) j -> heap_ok m' l').
Proof.
  revert j m l. induction fuel as [|fuel IH]; intros j m l Hwf Hj Hfuel; [lia|].
  simpl. destruct (Z.eqb_spec (Z.quot (j - 1) 2) j) as [E|E].
  { exists m, l. split; [done|]. split; [done|].
    split; [apply same_ci_refl|]. split; [done|].
    assert (j = 0) as ->.
    { destruct (decide (j = 0)); [done|].
      pose proof (HeapOrderFacts.parent_bounds j ltac:(lia)). lia. }
    apply HeapOrderFacts.up_inv_root. }
  assert (1 <= j) as Hj1.
  { destruct (decide (j = 0)) as [->|]; [done|lia]. }
  pose proof (HeapOrderFacts.parent_bounds j Hj1) as Hi.
  pose proof (HeapOrderFacts.parent_child j Hj1) as Hch.
  set (i := Z.quot (j - 1) 2) in *.
  rewrite Less_ok by (done || lia).
  destruct (N.ltb_spec (kf m l i) (kf m l j)) as [Hlt|Hge]; simpl.
  - destruct (Swap_ok m l i j Hwf ltac:(lia) Hj) as (pi & pj & m1 & Hli & Hlj & -> & Hci).
    set (l1 := <[Z.to_nat j := pi]> (<[Z.to_nat i := pj]> l)).
    assert (Hperm : l1 ≡ₚ l) by by apply Permutation_insert_swap.
    pose proof (slice_len_perm _ _ Hperm) as Hlen.
    destruct (IH i m1 l1) as (m' & l' & Hrun & Hwf' & Hci' & Hperm' & Hheap).
    { by eapply swapped_wf. }
    { lia. }
    { lia. }
    exists m', l'. split; [done|]. split; [done|].
    split; [by eapply same_ci_trans|]. split; [by rewrite Hperm'|].
    intros Hinv. apply Hheap. rewrite Hlen.
    eapply HeapOrderFacts.up_inv_step; [| exact Hch | | exact Hlt | | exact Hinv]; try lia.
    apply swapped_exchanged; (done || lia).
  - exists m, l. split; [done|]. split; [done|].
    split; [apply same_ci_refl|]. split; [done|].
    intros Hinv. eapply (HeapOrderFacts.up_inv_stop _ _ j i); [lia|done|done|done].
Qed.

(** The choice of the larger child in [down]. *)
Lemma larger_child m l i n :
  wf m l -> 0 <= i -> n <= slice_len l -> 2 * i + 1 < n ->
  exists r,
    (if 2 * i + 1 + 1 <? n
     then rawQueue_Less (2 * i + 1 + 1) (2 * i + 1) (World m l)
     else (Ret false, World m l)) = (Ret r, World m l) /\
    let j := if r then 2 * i + 1 + 1 else 2 * i + 1 in
    j < n /\ HeapOrder.child i j /\
    forall c, HeapOrder.child i c -> c < n -> (kf m l c <= kf m l j)%N.
Proof.
  intros Hwf Hi Hn Hj1. unfold HeapOrder.child.
  destruct (Z.ltb_spec (2 * i + 1 + 1) n) as [Hj2|Hj2].
  - rewrite Less_ok by (done || lia).
    destruct (N.ltb_spec (kf m l (2 * i + 1)) (kf m l (2 * i + 1 + 1))) as [Hlt|Hge].
    + exists true. split; [done|]. simpl. split; [done|]. split; [lia|].
      intros c [-> | ->] _; [lia|].
      replace (2 * i + 2) with (2 * i + 1 + 1) by lia. lia.
    + exists false. split; [done|]. simpl. split; [done|]. split; [lia|].
      intros c [-> | ->] _; [lia|].
      replace (2 * i + 2) with (2 * i + 1 + 1) by lia. lia.
  - exists false. split; [done|]. simpl. split; [done|]. split; [lia|].
    intros c [-> | ->] Hc; lia.
Qed.

(** Sifting down from a hole at [i] restores the heap order on the first
    [n] slots and does not touch the others. *)
Lemma down_loop_ok fuel i0 i n m l :
  wf m l -> 0 <= i -> n <= slice_len l -> (Z.to_nat (n - i) < fuel)%nat ->
  exists b m' l',
    down_loop fuel i0 i n (World m l) = Some (Ret b, World m' l') /\
    wf m' l' /\ same_ci m m' /\ l' ≡ₚ l /\
    (forall c, n <= c -> l' !! Z.to_nat c = l !! Z.to_nat c) /\
    (HeapOrder.down_inv (kf m l) n i -> HeapOrder.heap (kf m' l') n).
Proof.
  revert i m l. induction fuel as [|fuel IH]; intros i m l Hwf Hi Hn Hfuel; [lia|].
  simpl.
  destruct (Z.geb_spec (2 * i + 1) n) as [E1|E1]; simpl.
  { exists (i0 <? i), m, l. split; [done|]. split; [done|].
    split; [apply same_ci_refl|]. split; [done|]. split; [done|].
    apply HeapOrderFacts.down_inv_leaf. lia. }
  destruct (Z.ltb_spec (2 * i + 1) 0) as [E2|_]; [lia|].
  destruct (larger_child m l i n Hwf Hi Hn E1) as (r & -> & Hjn & Hch & Hbig).
  set (j := if r then 2 * i + 1 + 1 else 2 * i + 1) in *.
  assert (0 <= j < slice_len l) as Hj by (unfold HeapOrder.child in Hch; lia).
  rewrite Less_ok by (done || lia).
  destruct (N.ltb_spec (kf m l i) (kf m l j)) as [Hlt|Hge]; simpl.
  - destruct (Swap_ok m l i j Hwf ltac:(lia) Hj) as (pi & pj & m1 & Hli & Hlj & -> & Hci).
    set (l1 := <[Z.to_nat j := pi]> (<[Z.to_nat i := pj]> l)).
    assert (Hperm : l1 ≡ₚ l) by by apply Permutation_insert_swap.
    pose proof (slice_len_perm _ _ Hperm) as Hlen.
    destruct (IH j m1 l1) as (b & m' & l' & Hrun & Hwf' & Hci' & Hperm' & Hrest & Hheap).
    { by eapply swapped_wf. }
    { lia. }
    { lia. }
    { unfold HeapOrder.child in Hch. lia. }
    exists b, m', l'. split; [done|]. split; [done|].
    split; [by eapply same_ci_trans|]. split; [by rewrite Hperm'|]. split.
    + intros c Hc. rewrite Hrest by done. unfold l1.
      rewrite !list_lookup_insert_ne by (unfold HeapOrder.child in Hch; lia). done.
    + intros Hinv. apply Hheap.
      eapply HeapOrderFacts.down_inv_step;
        [| exact Hch | exact Hjn | exact Hbig | exact Hlt | | exact Hinv]; [lia|].
      apply swapped_exchanged; (done || lia).
  - exists (i0 <? i), m, l. split; [done|]. split; [done|].
    split; [apply same_ci_refl|]. split; [done|]. split; [done|].
    intros Hinv. eapply (HeapOrderFacts.down_inv_stop _ _ i j); [lia|done|done|done|done].
Qed.

Lemma heap_agree (f g : Z -> N) (n : Z) :
  (forall c, 0 <= c < n -> g c = f c) -> HeapOrder.heap f n -> HeapOrder.heap g n.
Proof.
  intros Hfg H p c Hp Hc Hn.
  rewrite !Hfg by (unfold HeapOrder.child in Hc; lia). by apply H.
Qed.

Lemma up_ok j m l :
  wf m l -> 0 <= j < slice_len l ->
  exists m' l',
    up j (World m l) = (Ret tt, World m' l') /\
    wf m' l' /\ same_ci m m' /\ l' ≡ₚ l /\
    (HeapOrder.up_inv (kf m l) (slice_len l) j -> heap_ok m' l').
Proof.
  intros Hwf Hj.
  destruct (up_loop_ok (S (Z.to_nat j)) j m l Hwf Hj ltac:(lia))
    as (m' & l' & Hrun & H).
  exists m', l'. split; [|done]. unfold up. by rewrite Hrun.
Qed.

Lemma down_ok n m l :
  wf m l -> n <= slice_len l ->
  exists b m' l',
    down 0 n (World m l) = (Ret b, World m' l') /\
    wf m' l' /\ same_ci m m' /\ l' ≡ₚ l /\
    (forall c, n <= c -> l' !! Z.to_nat c = l !! Z.to_nat c) /\
    (HeapOrder.down_inv (kf m l) n 0 -> HeapOrder.heap (kf m' l') n).
Proof.
  intros Hwf Hn.
  destruct (down_loop_ok (S (Z.to_nat (n - 0))) 0 0 n m l Hwf ltac:(lia) Hn ltac:(lia))
    as (b & m' & l' & Hrun & H).
  exists b, m', l'. split; [|done]. unfold down. by rewrite Hrun.
Qed.

(** ** heap.Push and heap.Pop on a well-formed heap *)

Lemma heap_Push_ok m l a r :
  wf m l -> heap_ok m l -> m !! a = Some r ->
  exists m' l',
    heap_Push (Some a) (World m l) = (Ret tt, World m' l') /\
    wf m' l' /\ same_ci m m' /\ l' ≡ₚ Some a :: l /\ heap_ok m' l'.
Proof.
  intros Hwf Hheap Ha.
  set (m1 := <[a := mkSyncRequest (SyncRequest_ChainInfo r) (slice_len l)]> m).
  set (l1 := l ++ [Some a]).
  assert (H1 : same_ci m m1) by by apply same_ci_set_index.
  assert (Hlen1 : slice_len l1 = slice_len l + 1).
  { unfold slice_len, l1. rewrite length_app. simpl. lia. }
  assert (Hwf1 : wf m1 l1).
  { apply Forall_app. split; [by apply (same_ci_wf m)|].
    apply Forall_singleton. apply (same_ci_live m); [done|]. by exists a, r. }
  destruct (up_ok (slice_len l) m1 l1 Hwf1) as (m' & l' & Hrun & Hwf' & Hci & Hperm & Hinv).
  { unfold slice_len in *. lia. }
  exists m', l'. split.
  { unfold heap_Push, bind, rawQueue_Push, bind, rawQueue_Len. simpl.
    rewrite Ha. simpl. fold m1 l1.
    replace (slice_len l1 - 1) with (slice_len l) by lia. done. }
  split; [done|]. split; [by eapply same_ci_trans|]. split.
  { rewrite Hperm. unfold l1. by rewrite Permutation_app_comm. }
  apply Hinv. rewrite Hlen1. split.
  - intros p c Hp Hc Hn Hne.
    assert (0 <= c < slice_len l) as Hc' by (unfold HeapOrder.child in Hc; lia).
    assert (forall x, 0 <= x < slice_len l -> kf m1 l1 x = kf m l x) as Hkf.
    { intros x Hx. rewrite (same_ci_kf m m1) by done. unfold kf, l1.
      rewrite lookup_app_l; [done|]. unfold slice_len in Hx. lia. }
    rewrite !Hkf by (unfold HeapOrder.child in Hc; lia).
    apply (Hheap p c); [done | done | lia].
  - intros g c Hg Hgx Hxc Hn. unfold HeapOrder.child, slice_len in *. lia.
Qed.

Lemma heap_Pop_ok m l :
  wf m l -> heap_ok m l -> 0 < slice_len l ->
  exists a r m' l',
    heap_Pop (World m l) = (Ret (Some a), World m' l') /\
    l !! 0%nat = Some (Some a) /\ m !! a = Some r /\
    m' !! a = Some (mkSyncRequest (SyncRequest_ChainInfo r) (-1)) /\
    wf m' l' /\ same_ci m m' /\ l ≡ₚ Some a :: l' /\ heap_ok m' l'.
Proof.
  intros Hwf Hheap Hpos.
  set (n := slice_len l - 1).
  destruct (wf_lookup m l 0 Hwf ltac:(lia)) as (a & r & Hl0 & Ha).
  change (Z.to_nat 0) with 0%nat in Hl0.
  destruct (Swap_ok m l 0 n Hwf ltac:(lia) ltac:(lia))
    as (p0 & pn & m1 & Hp0 & Hpn & Hswap & Hci1).
  change (Z.to_nat 0) with 0%nat in *. rewrite Hl0 in Hp0. injection Hp0 as <-.
  set (l1 := <[Z.to_nat n := Some a]> (<[0%nat := pn]> l)) in *.
  assert (Hperm1 : l1 ≡ₚ l) by by apply Permutation_insert_swap.
  pose proof (slice_len_perm _ _ Hperm1) as Hlen1.
  assert (Hwf1 : wf m1 l1) by by eapply swapped_wf.
  destruct (down_ok n m1 l1 Hwf1 ltac:(lia))
    as (b & m2 & l2 & Hdown & Hwf2 & Hci2 & Hperm2 & Hrest & Hinv).
  pose proof (slice_len_perm _ _ Hperm2) as Hlen2.
  assert (Hl2n : l2 !! Z.to_nat n = Some (Some a)).
  { rewrite Hrest by lia. unfold l1. apply list_lookup_insert_eq.
    rewrite length_insert. unfold slice_len in *. lia. }
  destruct (Forall_lookup_1 _ _ _ _ Hwf2 Hl2n) as (a' & r2 & [= <-] & Ha2).
  set (m3 := <[a := mkSyncRequest (SyncRequest_ChainInfo r2) (-1)]> m2).
  assert (Hci3 : same_ci m2 m3) by by apply same_ci_set_index.
  assert (Hci : same_ci m m3) by eauto using same_ci_trans.
  assert (Hr2 : SyncRequest_ChainInfo r2 = SyncRequest_ChainInfo r).
  { pose proof (same_ci_trans _ _ _ Hci1 Hci2 a) as E.
    rewrite Ha, Ha2 in E. by injection E. }
  exists a, r, m3, (take (Z.to_nat n) l2). split.
  { unfold heap_Pop, bind, rawQueue_Len at 1. simpl. fold n. rewrite Hswap, Hdown.
    unfold rawQueue_Pop, bind, rawQueue_Len. simpl.
    replace (slice_len l2 - 1) with n by lia.
    assert (0 <= n) as Hn0 by lia.
    rewrite (slice_get_ok _ _ _ _ Hn0 Hl2n).
    rewrite slice_set_ok by lia.
    rewrite (set_index_ok _ _ _ _ _ Ha2). fold m3.
    unfold reslice. simpl.
    assert ((0 <=? n) && (n <=? slice_len (<[Z.to_nat n:=None]> l2)) = true) as ->.
    { apply andb_true_intro. unfold slice_len. rewrite length_insert.
      split; [apply Z.leb_le | apply Z.leb_le]; unfold slice_len in *; lia. }
    by rewrite take_insert_ge by lia. }
  split; [done|]. split; [done|]. split.
  { unfold m3. rewrite list_lookup_insert_eq by (by eapply lookup_lt_Some).
    by rewrite Hr2. }
  split.
  { apply (same_ci_wf m2); [done|]. by apply Forall_take. }
  split; [done|]. split.
  { rewrite <- Hperm1, <- Hperm2.
    rewrite <- (take_ge l2 (S (Z.to_nat n))) at 1 by (unfold slice_len in *; lia).
    rewrite (take_S_r _ _ _ Hl2n). by rewrite Permutation_app_comm. }
  unfold heap_ok.
  assert (slice_len (take (Z.to_nat n) l2) = n) as ->.
  { unfold slice_len. rewrite length_take. unfold slice_len in *. lia. }
  apply (heap_agree (kf m2 l2)).
  { intros c Hc. rewrite (same_ci_kf m2 m3) by done. unfold kf.
    rewrite lookup_take_lt by lia. done. }
  apply Hinv. split.
  - intros p c Hp Hc Hcn Hne.
    pose proof (swapped_exchanged m m1 l 0 n (Some a) pn Hci1 ltac:(lia) ltac:(lia) Hl0 Hpn) as Hex.
    change (Z.to_nat 0) with 0%nat in Hex. fold l1 in Hex.
    rewrite (Hex c), (Hex p) by (unfold HeapOrder.child in Hc; lia).
    destruct (Z.eqb_spec c 0); [unfold HeapOrder.child in Hc; lia|].
    destruct (Z.eqb_spec p 0); [lia|].
    destruct (Z.eqb_spec c n); [lia|].
    destruct (Z.eqb_spec p n); [unfold HeapOrder.child in Hc; lia|].
    apply (Hheap p c); [done | done | lia].
  - intros g c Hg Hg0. unfold HeapOrder.child in Hg0. lia.
Qed.

(** ** TargetQueue on a well-formed heap *)

Lemma NewTargetQueue_eq m : NewTargetQueue m = World m (mkTargetQueue []).
Proof. reflexivity. Qed.

Lemma NewTargetQueue_inv m : tq_inv (NewTargetQueue m).
Proof.
  rewrite NewTargetQueue_eq. split; simpl.
  - apply Forall_nil_2.
  - intros p c Hp Hc Hn. unfold HeapOrder.child, slice_len in *. simpl in *. lia.
Qed.

Lemma TargetQueue_Push_nil w :
  TargetQueue_Push None w = (Some errBadPush, w).
Proof. by destruct w as [m [l]]. Qed.

Lemma TargetQueue_Push_ok w a r :
  tq_inv w -> mem w !! a = Some r ->
  exists w',
    TargetQueue_Push (Some a) w = (None, w') /\ tq_inv w' /\
    same_ci (mem w) (mem w') /\ q (self w') ≡ₚ Some a :: q (self w).
Proof.
  destruct w as [m [l]]. intros [Hwf Hheap] Ha. simpl in *.
  destruct (heap_Push_ok m l a r Hwf Hheap Ha)
    as (m' & l' & Hrun & Hwf' & Hci & Hperm & Hheap').
  exists (World m' (mkTargetQueue l')).
  unfold TargetQueue_Push, on_q. simpl. rewrite Hrun. by repeat split.
Qed.

Lemma TargetQueue_Pop_empty w :
  TargetQueue_Len w = 0 -> TargetQueue_Pop w = ((None, Some errBadPop), w).
Proof.
  destruct w as [m [l]]. unfold TargetQueue_Len, slice_len. simpl.
  intros Hlen. by destruct l.
Qed.

Lemma TargetQueue_Pop_ok w :
  tq_inv w -> 0 < TargetQueue_Len w ->
  exists a r w',
    TargetQueue_Pop w = ((Some a, None), w') /\
    q (self w) !! 0%nat = Some (Some a) /\ mem w !! a = Some r /\
    mem w' !! a = Some (mkSyncRequest (SyncRequest_ChainInfo r) (-1)) /\
    tq_inv w' /\ same_ci (mem w) (mem w') /\
    q (self w) ≡ₚ Some a :: q (self w').
Proof.
  destruct w as [m [l]]. intros [Hwf Hheap] Hlen.
  unfold TargetQueue_Len in Hlen. simpl in *.
  destruct (heap_Pop_ok m l Hwf Hheap Hlen)
    as (a & r & m' & l' & Hrun & Hl0 & Ha & Ha' & Hwf' & Hci & Hperm & Hheap').
  exists a, r, (World m' (mkTargetQueue l')).
  unfold TargetQueue_Pop, on_q. simpl. rewrite Hrun. by repeat split.
Qed.

(** The popped request is one of greatest height. *)
Lemma heap_root_greatest m l a :
  wf m l -> heap_ok m l -> l !! 0%nat = Some (Some a) ->
  forall p, p ∈ l -> (keyp m p <= keyp m (Some a))%N.
Proof.
  intros Hwf Hheap Hl0 p [i Hi]%list_elem_of_lookup.
  pose proof (lookup_lt_Some _ _ _ Hi) as Hlt.
  pose proof (HeapOrderFacts.heap_root_max _ _ Hheap (Z.of_nat i)) as Hmax.
  unfold kf in Hmax. rewrite Nat2Z.id in Hmax.
  change (Z.to_nat 0) with 0%nat in Hmax. rewrite Hi, Hl0 in Hmax.
  apply Hmax. unfold slice_len. lia.
Qed.

(** ** Reachable queue states keep the invariant *)

Lemma wf_alloc m l r : wf m l -> wf (m ++ [r]) l.
Proof.
  intros Hwf. eapply Forall_impl; [exact Hwf|].
  intros p (a & r' & -> & Ha). exists a, r'. split; [done|].
  by apply lookup_app_l_Some.
Qed.

Lemma keyp_alloc m r p : live m p -> keyp (m ++ [r]) p = keyp m p.
Proof.
  intros (a & r' & -> & Ha). simpl.
  by rewrite (lookup_app_l_Some _ _ _ _ Ha), Ha.
Qed.

Lemma heap_ok_alloc m l r : wf m l -> heap_ok m l -> heap_ok (m ++ [r]) l.
Proof.
  intros Hwf Hheap. apply (heap_agree (kf m l)); [|done].
  intros c Hc. unfold kf.
  destruct (wf_lookup m l c Hwf Hc) as (a & r' & -> & Ha). simpl.
  by rewrite (lookup_app_l_Some _ _ _ _ Ha), Ha.
Qed.

Lemma tq_step_inv w w' : tq_inv w -> tq_step w w' -> tq_inv w'.
Proof.
  intros Hinv Hstep. destruct Hstep as [w r | w p Hp | w].
  - destruct Hinv as [Hwf Hheap]. split; simpl.
    + by apply wf_alloc.
    + by apply heap_ok_alloc.
  - destruct p as [a|].
    + destruct Hp as [r Hr].
      destruct (TargetQueue_Push_ok w a r Hinv Hr) as (w' & -> & Hinv' & _). done.
    + by rewrite TargetQueue_Push_nil.
  - destruct (decide (0 < TargetQueue_Len w)) as [Hlen|Hlen].
    + destruct (TargetQueue_Pop_ok w Hinv Hlen) as (a & r & w' & -> & _ & _ & _ & Hinv' & _).
      done.
    + rewrite TargetQueue_Pop_empty; [done|].
      unfold TargetQueue_Len, slice_len in *. lia.
Qed.

Lemma tq_reachable_inv w : tq_reachable w -> tq_inv w.
Proof.
  induction 1 as [m | w w' _ IH Hstep].
  - apply NewTargetQueue_inv.
  - by eapply tq_step_inv.
Qed.

(** ** Draining pops in descending height *)

Lemma drain_loop_ok fuel w :
  tq_inv w -> (length (q (self w)) < fuel)%nat ->
  exists rs w',
    drain_loop fuel w = Some (rs, w') /\
    TargetQueue_Len w' = 0 /\ tq_inv w' /\ same_ci (mem w) (mem w') /\
    Forall (fun r => live (mem w') (fst r) /\ snd r = None) rs /\
    map fst rs ≡ₚ q (self w) /\
    non_increasing (popped_heights (mem w') rs).
Proof.
  revert w. induction fuel as [|fuel IH]; intros w Hinv Hfuel; [lia|].
  simpl. destruct (Z.ltb_spec 0 (TargetQueue_Len w)) as [Hlen|Hlen].
  - destruct (TargetQueue_Pop_ok w Hinv Hlen)
      as (a & r & w1 & -> & Hl0 & Ha & Ha1 & Hinv1 & Hci1 & Hperm1).
    destruct (IH w1 Hinv1) as (rs & w' & -> & Hlen' & Hinv' & Hci' & Hall & Hperm' & Hsorted).
    { apply Permutation_length in Hperm1. simpl in Hperm1. lia. }
    exists ((Some a, None) :: rs), w'. split; [done|]. split; [done|].
    split; [done|]. split; [by eapply same_ci_trans|].
    assert (Hci : same_ci (mem w) (mem w')) by by eapply same_ci_trans.
    split; [|split].
    + apply Forall_cons. split; [|done]. split; [|done].
      apply (same_ci_live (mem w)); [done|]. by exists a, r.
    + simpl. by rewrite Hperm', Hperm1.
    + change (popped_heights (mem w') ((Some a, None) :: rs))
        with (keyp (mem w') (Some a) :: popped_heights (mem w') rs).
      apply SSorted_cons; [done|].
      apply List.Forall_forall. intros h Hin. unfold popped_heights in Hin.
      apply in_map_iff in Hin as ([p e] & <- & Hin).
      apply list_elem_of_In in Hin. cbn [fst].
      rewrite !(same_ci_keyp _ _ _ Hci).
      destruct Hinv as [Hwf Hheap].
      apply (heap_root_greatest _ _ _ Hwf Hheap Hl0).
      rewrite Hperm1. right. rewrite <- Hperm'.
      apply list_elem_of_fmap. by exists (p, e).
  - exists [], w. split; [done|]. split.
    { unfold TargetQueue_Len, slice_len in *. lia. }
    split; [done|]. split; [apply same_ci_refl|]. split; [done|]. split.
    + destruct w as [m [[|p l]]]; [done|].
      unfold TargetQueue_Len, slice_len in Hlen. simpl in Hlen. lia.
    + constructor.
Qed.

(** ** The acceptance procedure *)

Lemma call_receive e ci w : call e ci w = receive ci w.
Proof. by destruct e. Qed.

Lemma receive_tracked ci w :
  key ci ∈ targetSet (self w) -> receive ci w = (None, w).
Proof. intros Hin. unfold receive. fold (key ci). by rewrite decide_True. Qed.

Lemma NewDispatcher_eq m :
  NewDispatcher m = World m (mkDispatcher ∅ (mkTargetQueue [])).
Proof. reflexivity. Qed.

Lemma heights_alloc m l r : wf m l -> map (keyp (m ++ [r])) l = map (keyp m) l.
Proof.
  intros Hwf. apply map_ext_in. intros p Hp. apply keyp_alloc.
  eapply (proj1 (List.Forall_forall _ _) Hwf). done.
Qed.

Lemma heights_same_ci m m' l : same_ci m m' -> map (keyp m') l = map (keyp m) l.
Proof. intros H. apply map_ext. intros p. by apply same_ci_keyp. Qed.

(** An untracked head is queued under its own height and then tracked. *)
Lemma receive_fresh ci w :
  tq_inv (tq_of w) -> key ci ∉ targetSet (self w) ->
  exists w',
    receive ci w = (None, w') /\ tq_inv (tq_of w') /\
    targetSet (self w') = {[key ci]} ∪ targetSet (self w) /\
    heights (tq_of w') ≡ₚ Height ci :: heights (tq_of w).
Proof.
  destruct w as [m [S [l]]]. intros [Hwf Hheap] Hnew. simpl in *.
  set (r := mkSyncRequest ci 0).
  assert (Hinv1 : tq_inv (World (m ++ [r]) (mkTargetQueue l))).
  { split; simpl; [by apply wf_alloc | by apply heap_ok_alloc]. }
  assert (Hr : (m ++ [r]) !! length m = Some r).
  { rewrite lookup_app_r by lia. by rewrite Nat.sub_diag. }
  destruct (TargetQueue_Push_ok _ (length m) r Hinv1 Hr)
    as ([m' [l']] & Hrun & Hinv' & Hci & Hperm).
  simpl in *.
  exists (World m' (mkDispatcher ({[key ci]} ∪ S) (mkTargetQueue l'))).
  split; [|split; [done|split; [done|]]].
  - unfold receive. fold (key ci). simpl. rewrite decide_False by done.
    unfold on_targetQ. simpl. fold r. by rewrite Hrun.
  - unfold heights. cbn [tq_of mem self targetQ q]. rewrite Hperm, map_cons.
    rewrite (same_ci_keyp _ _ (Some (length m)) Hci).
    rewrite (heights_same_ci _ _ _ Hci), (heights_alloc _ _ _ Hwf).
    simpl. by rewrite Hr.
Qed.

Lemma submit_all_fresh subs w :
  tq_inv (tq_of w) ->
  NoDup (map (fun s => key (snd s)) subs) ->
  (forall s, s ∈ subs -> key (snd s) ∉ targetSet (self w)) ->
  exists w',
    submit_all subs w = (map (fun _ => None) subs, w') /\
    tq_inv (tq_of w') /\
    heights (tq_of w') ≡ₚ map (fun s => Height (snd s)) subs ++ heights (tq_of w).
Proof.
  revert w. induction subs as [|[e ci] subs IH]; intros w Hinv Hnd Hnew.
  { by exists w. }
  simpl in Hnd. apply NoDup_cons in Hnd as [Hci Hnd].
  destruct (receive_fresh ci w Hinv) as (w1 & Hrun & Hinv1 & Hset & Hh1).
  { apply (Hnew (e, ci)). by left. }
  destruct (IH w1 Hinv1 Hnd) as (w' & Hrun' & Hinv' & Hh').
  { intros s Hs. rewrite Hset. intros [Heq%elem_of_singleton | Hin]%elem_of_union.
    - apply Hci. rewrite <- Heq. apply list_elem_of_In, in_map_iff.
      exists s. split; [done|]. by apply list_elem_of_In.
    - apply (Hnew s); [by right | done]. }
  exists w'. split; [|split; [done|]].
  - simpl. by rewrite call_receive, Hrun, Hrun'.
  - rewrite Hh', Hh1. simpl. by rewrite <- Permutation_middle.
Qed.

(** ** Observable dispatcher states *)

Lemma pop_target_eq w :
  pop_target w =
  (fst (TargetQueue_Pop (tq_of w)),
   World (mem (snd (TargetQueue_Pop (tq_of w))))
         (mkDispatcher (targetSet (self w)) (self (snd (TargetQueue_Pop (tq_of w)))))).
Proof.
  unfold pop_target, on_targetQ, tq_of.
  by destruct (TargetQueue_Pop _) as [r w'].
Qed.

Lemma heights_len w : Z.of_nat (length (heights w)) = TargetQueue_Len w.
Proof. unfold heights, TargetQueue_Len, slice_len. by rewrite length_map. Qed.

Lemma observed_inv w k :
  observed w k ->
  tq_inv (tq_of w) /\
  Z.of_nat (size (targetSet (self w))) = TargetQueue_Len (tq_of w) + Z.of_nat k.
Proof.
  induction 1 as [m | w k e ci _ [Hinv Hsize] | w k req w' _ [Hinv Hsize] Hpop
                 | w k req err w' _ [Hinv Hsize] Hpop].
  - rewrite NewDispatcher_eq. split; [apply (NewTargetQueue_inv m)|].
    cbn [self targetSet]. by rewrite size_empty.
  - rewrite call_receive.
    destruct (decide (key ci ∈ targetSet (self w))) as [Hin|Hnew].
    + by rewrite receive_tracked.
    + destruct (receive_fresh ci w Hinv Hnew) as (w' & -> & Hinv' & Hset & Hh).
      split; [done|]. simpl. rewrite Hset.
      rewrite size_union by (by apply disjoint_singleton_l).
      rewrite size_singleton.
      rewrite <- (heights_len (tq_of w')), Hh. simpl.
      rewrite <- (heights_len (tq_of w)) in Hsize. lia.
  - rewrite pop_target_eq in Hpop.
    destruct (decide (0 < TargetQueue_Len (tq_of w))) as [Hlen|Hlen].
    + destruct (TargetQueue_Pop_ok _ Hinv Hlen)
        as (a & r & w1 & Hrun & _ & _ & _ & Hinv1 & _ & Hperm).
      rewrite Hrun in Hpop. simpl in Hpop. injection Hpop as <- <-.
      split; [by destruct w1|]. simpl.
      apply Permutation_length in Hperm. simpl in Hperm.
      unfold TargetQueue_Len, slice_len in *. simpl in *. lia.
    + rewrite TargetQueue_Pop_empty in Hpop
        by (unfold TargetQueue_Len, slice_len in *; lia).
      simpl in Hpop. congruence.
  - rewrite pop_target_eq in Hpop.
    destruct (decide (0 < TargetQueue_Len (tq_of w))) as [Hlen|Hlen].
    + destruct (TargetQueue_Pop_ok _ Hinv Hlen) as (a & r & w1 & Hrun & _).
      rewrite Hrun in Hpop. simpl in Hpop. congruence.
    + rewrite TargetQueue_Pop_empty in Hpop
        by (unfold TargetQueue_Len, slice_len in *; lia).
      simpl in Hpop. injection Hpop as <- <- <-.
      by destruct w as [m [S [l]]].
Qed.

Lemma tq_inv_max_heap w : tq_inv w -> max_heap w.
Proof.
  intros [Hwf Hheap] p c ap ac rp rc Hc Hp Hap Hcl Hac.
  pose proof (lookup_lt_Some _ _ _ Hcl) as Hlt.
  pose proof (Hheap (Z.of_nat p) (Z.of_nat c)) as H.
  unfold kf in H. rewrite !Nat2Z.id, Hp, Hcl in H. simpl in H.
  rewrite Hap, Hac in H. apply H; [lia | | unfold slice_len; lia].
  unfold HeapOrder.child. lia.
Qed.

Lemma tq4_reachable : tq_reachable Examples.tq4.
Proof.
  eapply reach_step; [|apply (step_Push Examples.tq3 (Some 1%nat)); by eexists].
  eapply reach_step; [|apply step_new].
  eapply reach_step; [|apply (step_Push Examples.tq1 (Some 0%nat)); by eexists].
  eapply reach_step; [|apply step_new].
  apply reach_New.
Qed.

#[local] Instance N_ge_antisymm : AntiSymm (=) (fun x y : N => (y <= x)%N).
Proof. intros x y H1 H2. lia. Qed.

(** * The properties of the dispatcher and its queue *)

(** C8: the three entry points [ReceiveHello], [ReceiveOwnBlock] and
    [ReceiveGossipBlock] are the shared acceptance procedure [receive]:
    on every descriptor and every dispatcher state each returns the same
    error and leaves the same state as [receive], hence as one another. *)
Theorem entry_points_are_receive (ci : ChainInfo) (w : world Dispatcher) :
  ReceiveHello ci w = receive ci w /\
  ReceiveOwnBlock ci w = receive ci w /\
  ReceiveGossipBlock ci w = receive ci w /\
  forall e e', call e ci w = call e' ci w.
Proof.
  repeat split. intros e e'. by rewrite !call_receive.
Qed.

(** C10: [TargetQueue.Push] of a nil request returns [errBadPush] and
    leaves the queue (and the store) as it was, on every state: the nil
    dereference in [rawQueue.Push] happens before the append and is
    recovered. *)
Theorem Push_nil_reports_errBadPush (w : world TargetQueue) :
  TargetQueue_Push None w = (Some errBadPush, w) /\
  TargetQueue_Len (snd (TargetQueue_Push None w)) = TargetQueue_Len w /\
  q (self (snd (TargetQueue_Push None w))) = q (self w).
Proof. by rewrite TargetQueue_Push_nil. Qed.

(** C5: [TargetQueue.Pop] on a queue of length 0 returns a nil request
    with [errBadPop], and the queue is still of length 0 (nothing at all
    has changed). *)
Theorem Pop_empty_reports_errBadPop (w : world TargetQueue) :
  TargetQueue_Len w = 0 ->
  TargetQueue_Pop w = ((None, Some errBadPop), w) /\
  TargetQueue_Len (snd (TargetQueue_Pop w)) = 0.
Proof.
  intros Hlen. by rewrite TargetQueue_Pop_empty.
Qed.

Lemma Pop_empty_reports_errBadPop_witness :
  TargetQueue_Pop (NewTargetQueue []) = ((None, Some errBadPop), NewTargetQueue []) /\
  TargetQueue_Len (snd (TargetQueue_Pop (NewTargetQueue []))) = 0.
Proof. apply (Pop_empty_reports_errBadPop (NewTargetQueue [])). reflexivity. Defined.

(** C9: on every reachable queue state of positive length,
    [TargetQueue.Pop] returns a non-nil request and a nil error (the
    recovered-panic branch is not taken), and the queue is one shorter. *)
Theorem Pop_nonempty_succeeds (w : world TargetQueue) :
  tq_reachable w -> 0 < TargetQueue_Len w ->
  exists a w',
    TargetQueue_Pop w = ((Some a, None), w') /\
    TargetQueue_Len w' = TargetQueue_Len w - 1.
Proof.
  intros Hreach Hlen.
  destruct (TargetQueue_Pop_ok w (tq_reachable_inv w Hreach) Hlen)
    as (a & r & w' & Hrun & _ & _ & _ & _ & _ & Hperm).
  exists a, w'. split; [done|].
  apply Permutation_length in Hperm. simpl in Hperm.
  unfold TargetQueue_Len, slice_len. lia.
Qed.

Lemma Pop_nonempty_succeeds_witness :
  exists a w',
    TargetQueue_Pop Examples.tq4 = ((Some a, None), w') /\
    TargetQueue_Len w' = TargetQueue_Len Examples.tq4 - 1.
Proof.
  apply (Pop_nonempty_succeeds Examples.tq4); [apply tq4_reachable | reflexivity].
Defined.

(** C7: the max-heap invariant (every queued request is at least as high
    as both its children in the backing array) holds in every reachable
    queue state, and so before and after every [Push] and every [Pop]. *)
Theorem heap_invariant_around_Push_Pop (w : world TargetQueue) :
  tq_reachable w ->
  max_heap w /\
  (forall p, valid_ptr (mem w) p -> max_heap (snd (TargetQueue_Push p w))) /\
  max_heap (snd (TargetQueue_Pop w)).
Proof.
  intros Hreach. split; [|split].
  - by apply tq_inv_max_heap, tq_reachable_inv.
  - intros p Hp. apply tq_inv_max_heap, tq_reachable_inv.
    eapply reach_step; [exact Hreach|]. by apply step_Push.
  - apply tq_inv_max_heap, tq_reachable_inv.
    eapply reach_step; [exact Hreach|]. apply step_Pop.
Qed.

Lemma heap_invariant_around_Push_Pop_witness :
  max_heap Examples.tq4 /\
  (forall p, valid_ptr (mem Examples.tq4) p ->
             max_heap (snd (TargetQueue_Push p Examples.tq4))) /\
  max_heap (snd (TargetQueue_Pop Examples.tq4)).
Proof. apply (heap_invariant_around_Push_Pop Examples.tq4). apply tq4_reachable. Defined.

(** C2: when the head's key is already in the dedup set, [receive], through
    any of the three entry points, returns a nil error and changes nothing
    (dedup set, target queue and store), whatever the height of the new
    descriptor; in particular two descriptors with the same head and the
    heights 10 and then 999, submitted to a new dispatcher, leave a queue
    of length 1 whose entry has height 10. *)
Theorem receive_drops_tracked_head :
  (forall e ci w, key ci ∈ targetSet (self w) -> call e ci w = (None, w)) /\
  (forall m e1 e2 head o1 o2,
     exists w1 w2,
       call e1 (mkChainInfo head 10 o1) (NewDispatcher m) = (None, w1) /\
       call e2 (mkChainInfo head 999 o2) w1 = (None, w2) /\
       TargetQueue_Len (tq_of w2) = 1 /\
       heights (tq_of w2) = [10%N]).
Proof.
  split.
  - intros e ci w Hin. rewrite call_receive. by apply receive_tracked.
  - intros m e1 e2 head o1 o2.
    destruct (receive_fresh (mkChainInfo head 10 o1) (NewDispatcher m))
      as (w1 & Hrun & Hinv & Hset & Hh).
    { apply (NewTargetQueue_inv m). }
    { rewrite NewDispatcher_eq. simpl. apply not_elem_of_empty. }
    exists w1, w1. rewrite !call_receive. split; [done|].
    apply Permutation_sym, Permutation_length_1_inv in Hh.
    split; [|split; [|done]].
    + apply receive_tracked. rewrite Hset. apply elem_of_union_l.
      by apply elem_of_singleton.
    + by rewrite <- heights_len, Hh.
Qed.

Lemma receive_drops_tracked_head_witness :
  call OwnBlock (mkChainInfo (mkTipSetKey "A") 999 FromOwnBlock) Examples.d1
  = (None, Examples.d1).
Proof.
  apply (proj1 receive_drops_tracked_head).
  apply (bool_decide_unpack _). vm_compute. exact I.
Defined.

Lemma drain_ok w :
  tq_inv w ->
  exists rs w',
    drain w = Some (rs, w') /\
    TargetQueue_Len w' = 0 /\
    Forall (fun r => fst r <> None /\ snd r = None) rs /\
    popped_heights (mem w') rs ≡ₚ heights w /\
    non_increasing (popped_heights (mem w') rs).
Proof.
  intros Hinv.
  destruct (drain_loop_ok (S (length (q (self w)))) w Hinv ltac:(lia))
    as (rs & w' & Hrun & Hlen & _ & Hci & Hall & Hperm & Hsorted).
  exists rs, w'. split; [done|]. split; [done|]. split; [|split; [|done]].
  - eapply Forall_impl; [exact Hall|]. intros [p e] [(a & r & -> & _) He]. done.
  - unfold popped_heights, heights.
    rewrite <- (heights_same_ci _ _ _ Hci), <- Hperm. by rewrite map_map.
Qed.

(** C1: in every state a queue can reach by pushes and pops, popping until
    the queue is empty returns, without error, exactly the queued requests,
    in an order of non-increasing height. In particular the heights 5, 9,
    1, 20, 3, submitted to a new dispatcher in any order, under distinct
    heads and through any of the three entry points, are popped as 20, 9,
    5, 3, 1. *)
Theorem pops_come_in_descending_height :
  (forall w, tq_reachable w ->
     exists rs w',
       drain w = Some (rs, w') /\
       TargetQueue_Len w' = 0 /\
       Forall (fun r => fst r <> None /\ snd r = None) rs /\
       popped_heights (mem w') rs ≡ₚ heights w /\
       non_increasing (popped_heights (mem w') rs)) /\
  (forall m subs,
     NoDup (map (fun s => key (snd s)) subs) ->
     map (fun s => Height (snd s)) subs ≡ₚ [5; 9; 1; 20; 3]%N ->
     exists w rs w',
       submit_all subs (NewDispatcher m) = (map (fun _ => None) subs, w) /\
       drain (tq_of w) = Some (rs, w') /\
       Forall (fun r => fst r <> None /\ snd r = None) rs /\
       popped_heights (mem w') rs = [20; 9; 5; 3; 1]%N).
Proof.
  split.
  - intros w Hreach. by apply drain_ok, tq_reachable_inv.
  - intros m subs Hnd Hperm.
    destruct (submit_all_fresh subs (NewDispatcher m)) as (w & Hrun & Hinv & Hh).
    { apply (NewTargetQueue_inv m). }
    { done. }
    { intros s _. rewrite NewDispatcher_eq. simpl. apply not_elem_of_empty. }
    destruct (drain_ok _ Hinv) as (rs & w' & Hdrain & _ & Hall & Hperm' & Hsorted).
    exists w, rs, w'. split; [done|]. split; [done|]. split; [done|].
    apply (StronglySorted_unique (fun x y : N => (y <= x)%N)); [done| |].
    + repeat (apply SSorted_cons; [|repeat (apply Forall_cons; split; [lia|]); apply Forall_nil_2]).
      apply SSorted_nil.
    + rewrite Hperm', Hh, Hperm. rewrite NewDispatcher_eq.
      change (heights (tq_of (World m (mkDispatcher ∅ (mkTargetQueue []))))) with (@nil N).
      rewrite app_nil_r. apply (bool_decide_unpack _). vm_compute. exact I.
Qed.

Lemma pops_come_in_descending_height_witness :
  exists w rs w',
    submit_all Examples.five (NewDispatcher [])
    = (map (fun _ => None) Examples.five, w) /\
    drain (tq_of w) = Some (rs, w') /\
    Forall (fun r => fst r <> None /\ snd r = None) rs /\
    popped_heights (mem w') rs = [20; 9; 5; 3; 1]%N.
Proof.
  apply (proj2 pops_come_in_descending_height [] Examples.five).
  - apply (bool_decide_unpack _). vm_compute. exact I.
  - reflexivity.
Defined.

Lemma d2_observed : observed Examples.d2 1.
Proof.
  apply (obs_Pop Examples.d1 0 (Some 0%nat)).
  - apply (obs_receive _ 0 Hello). apply obs_New.
  - reflexivity.
Qed.

(** C3, as stated, fails: after one submission to a new dispatcher and one
    [Pop] the dedup set still holds the head while the queue is empty. *)
Lemma dedup_set_outlives_pop :
  observed Examples.d2 1 /\
  size (targetSet (self Examples.d2)) = 1%nat /\
  TargetQueue_Len (tq_of Examples.d2) = 0 /\
  Z.of_nat (size (targetSet (self Examples.d2))) <> TargetQueue_Len (tq_of Examples.d2).
Proof.
  split; [apply d2_observed|]. split; [by vm_compute|]. split; [done|].
  by vm_compute.
Qed.

(** C3, amended: in every state reached from a new dispatcher by
    submissions and pops, the cardinality of the dedup set is the length
    of the queue plus the number of requests popped so far ([Pop] takes
    nothing out of the set); the two are equal as long as nothing has been
    popped. *)
Theorem dedup_set_counts_queued_and_popped (w : world Dispatcher) (k : nat) :
  observed w k ->
  Z.of_nat (size (targetSet (self w))) = TargetQueue_Len (tq_of w) + Z.of_nat k /\
  (k = 0%nat -> Z.of_nat (size (targetSet (self w))) = TargetQueue_Len (tq_of w)).
Proof.
  intros Hobs. destruct (observed_inv w k Hobs) as [_ Hsize].
  split; [done|]. intros ->. lia.
Qed.

Lemma dedup_set_counts_queued_and_popped_witness :
  Z.of_nat (size (targetSet (self Examples.d2)))
  = TargetQueue_Len (tq_of Examples.d2) + Z.of_nat 1 /\
  (1%nat = 0%nat ->
   Z.of_nat (size (targetSet (self Examples.d2))) = TargetQueue_Len (tq_of Examples.d2)).
Proof.
  apply (dedup_set_counts_queued_and_popped Examples.d2 1). apply d2_observed.
Defined.

(** C4, on the code: after the heights 1 and then 5 have been submitted to
    a new dispatcher, [up] has exchanged the two slots; slot 0 holds the
    second request, whose [index] is 1, and slot 1 holds the first request,
    whose [index] is 0. [rawQueue.Swap] writes [j] into the request now in
    slot [i] and [i] into the request now in slot [j], so the tokens name
    the slots the requests have left. *)
Theorem Swap_leaves_stale_position_tokens :
  submit_all [(Hello, Examples.low); (GossipBlock, Examples.high)] (NewDispatcher [])
  = ([None; None], Examples.d_low_high) /\
  q (targetQ (self Examples.d_low_high)) = [Some 1%nat; Some 0%nat] /\
  mem Examples.d_low_high !! 1%nat = Some (mkSyncRequest Examples.high 1) /\
  mem Examples.d_low_high !! 0%nat = Some (mkSyncRequest Examples.low 0) /\
  ~ tokens_accurate (tq_of Examples.d_low_high).
Proof.
  split; [reflexivity|]. split; [reflexivity|]. split; [reflexivity|].
  split; [reflexivity|].
  intros H. specialize (H 0%nat 1%nat (mkSyncRequest Examples.high 1) eq_refl eq_refl).
  discriminate H.
Qed.

(** C6: when the head is not tracked and the push of the new request
    returns an error, [receive] (through any entry point) returns that
    error and the dedup set is as before: the key is added after a
    successful push only. *)
Theorem receive_propagates_push_error (ci : ChainInfo) (w w2 : world Dispatcher)
    (err : error) :
  key ci ∉ targetSet (self w) ->
  on_targetQ (TargetQueue_Push (fst (new_SyncRequest (mkSyncRequest ci 0) w)))
             (snd (new_SyncRequest (mkSyncRequest ci 0) w)) = (Some err, w2) ->
  receive ci w = (Some err, w2) /\
  targetSet (self w2) = targetSet (self w) /\
  forall e, call e ci w = (Some err, w2).
Proof.
  intros Hnew Hpush.
  assert (Hrun : receive ci w = (Some err, w2)).
  { unfold receive. fold (key ci). rewrite decide_False by done.
    simpl in *. by rewrite Hpush. }
  split; [done|]. split.
  - unfold on_targetQ in Hpush.
    destruct (TargetQueue_Push _ _) as [e' w'] in Hpush.
    injection Hpush as _ <-. done.
  - intros e. by rewrite call_receive.
Qed.

Lemma receive_propagates_push_error_witness :
  exists w2,
    receive Examples.ciA10 Examples.tampered = (Some errBadPush, w2) /\
    targetSet (self w2) = targetSet (self Examples.tampered) /\
    forall e, call e Examples.ciA10 Examples.tampered = (Some errBadPush, w2).
Proof.
  eexists.
  apply (receive_propagates_push_error Examples.ciA10 Examples.tampered).
  - apply not_elem_of_empty.
  - reflexivity.
Defined.

(** * Further properties of the queue and the dispatcher *)

(** ** The queue writes position tokens only *)

Lemma frame_ret {T A} (a : A) : writes_tokens_only (@ret T A a).
Proof. intros w. apply same_ci_refl. Qed.

Lemma frame_bind {T A B} (m : method T A) (k : A -> method T B) :
  writes_tokens_only m -> (forall a, writes_tokens_only (k a)) ->
  writes_tokens_only (bind m k).
Proof.
  intros Hm Hk w. unfold bind. specialize (Hm w).
  destruct (m w) as [[a|] w1]; simpl in *; [|done].
  eapply same_ci_trans; [exact Hm|]. apply Hk.
Qed.

Lemma frame_slice_get i : writes_tokens_only (slice_get i).
Proof.
  intros w. unfold slice_get.
  destruct ((0 <=? i) && (i <? slice_len (self w))); [|apply same_ci_refl].
  destruct (self w !! Z.to_nat i); apply same_ci_refl.
Qed.

Lemma frame_slice_set i p : writes_tokens_only (slice_set i p).
Proof.
  intros w. unfold slice_set.
  destruct ((0 <=? i) && (i <? slice_len (self w))); apply same_ci_refl.
Qed.

Lemma frame_load {T} p : writes_tokens_only (@load T p).
Proof.
  intros w. unfold load. destruct p as [a|]; [|apply same_ci_refl].
  destruct (mem w !! a); apply same_ci_refl.
Qed.

Lemma frame_set_index {T} p v : writes_tokens_only (@set_index T p v).
Proof.
  intros w. unfold set_index. destruct p as [a|]; [|apply same_ci_refl].
  destruct (mem w !! a) as [r|] eqn:Ha; [|apply same_ci_refl].
  simpl. by apply same_ci_set_index.
Qed.

Lemma frame_reslice n : writes_tokens_only (reslice n).
Proof.
  intros w. unfold reslice.
  destruct ((0 <=? n) && (n <=? slice_len (self w))); apply same_ci_refl.
Qed.

Lemma frame_Len : writes_tokens_only rawQueue_Len.
Proof. intros w. apply same_ci_refl. Qed.

Lemma frame_Less i j : writes_tokens_only (rawQueue_Less i j).
Proof.
  unfold rawQueue_Less.
  repeat (apply frame_bind; [first [apply frame_slice_get | apply frame_load]|]; intros ?).
  apply frame_ret.
Qed.

Lemma frame_Swap i j : writes_tokens_only (rawQueue_Swap i j).
Proof.
  unfold rawQueue_Swap.
  repeat (apply frame_bind;
          [first [apply frame_slice_get | apply frame_slice_set | apply frame_set_index]|];
          intros ?).
  apply frame_set_index.
Qed.

Lemma frame_rawQueue_Push x : writes_tokens_only (rawQueue_Push x).
Proof.
  unfold rawQueue_Push.
  apply frame_bind; [apply frame_Len|]; intros n.
  apply frame_bind; [apply frame_set_index|]; intros _.
  intros w. apply same_ci_refl.
Qed.

Lemma frame_rawQueue_Pop : writes_tokens_only rawQueue_Pop.
Proof.
  unfold rawQueue_Pop.
  apply frame_bind; [apply frame_Len|]; intros n.
  apply frame_bind; [apply frame_slice_get|]; intros item.
  apply frame_bind; [apply frame_slice_set|]; intros _.
  apply frame_bind; [apply frame_set_index|]; intros _.
  apply frame_bind; [apply frame_reslice|]; intros _.
  apply frame_ret.
Qed.

Lemma frame_up_loop fuel j w r :
  up_loop fuel j w = Some r -> same_ci (mem w) (mem (snd r)).
Proof.
  revert j w. induction fuel as [|fuel IH]; intros j w; [done|].
  simpl. destruct (Z.quot (j - 1) 2 =? j).
  { intros [= <-]. apply same_ci_refl. }
  pose proof (frame_Less j (Z.quot (j - 1) 2) w) as H1.
  destruct (rawQueue_Less j (Z.quot (j - 1) 2) w) as [[b|] w1]; simpl in H1.
  2:{ by intros [= <-]. }
  destruct b; simpl.
  2:{ by intros [= <-]. }
  pose proof (frame_Swap (Z.quot (j - 1) 2) j w1) as H2.
  destruct (rawQueue_Swap (Z.quot (j - 1) 2) j w1) as [[[]|] w2]; simpl in H2.
  - intros Hrun. eapply same_ci_trans; [exact H1|].
    eapply same_ci_trans; [exact H2|]. by eapply IH.
  - intros [= <-]. by eapply same_ci_trans.
Qed.

Lemma frame_down_loop fuel i0 i n w r :
  down_loop fuel i0 i n w = Some r -> same_ci (mem w) (mem (snd r)).
Proof.
  revert i w. induction fuel as [|fuel IH]; intros i w; [done|].
  simpl. destruct ((2 * i + 1 >=? n) || (2 * i + 1 <? 0)).
  { intros [= <-]. apply same_ci_refl. }
  assert (H1 : same_ci (mem w)
            (mem (snd (if 2 * i + 1 + 1 <? n
                       then rawQueue_Less (2 * i + 1 + 1) (2 * i + 1) w
                       else (Ret false, w))))).
  { destruct (2 * i + 1 + 1 <? n); [apply frame_Less | apply same_ci_refl]. }
  destruct (if 2 * i + 1 + 1 <? n then _ else _) as [[c|] w1]; simpl in H1.
  2:{ by intros [= <-]. }
  set (j := if c then 2 * i + 1 + 1 else 2 * i + 1).
  pose proof (frame_Less j i w1) as H2.
  destruct (rawQueue_Less j i w1) as [[b|] w2]; simpl in H2.
  2:{ intros [= <-]. by eapply same_ci_trans. }
  destruct b; simpl.
  2:{ intros [= <-]. by eapply same_ci_trans. }
  pose proof (frame_Swap i j w2) as H3.
  destruct (rawQueue_Swap i j w2) as [[[]|] w3]; simpl in H3.
  - intros Hrun. eapply same_ci_trans; [exact H1|].
    eapply same_ci_trans; [exact H2|].
    eapply same_ci_trans; [exact H3|]. by eapply IH.
  - intros [= <-]. eapply same_ci_trans; [exact H1|]. by eapply same_ci_trans.
Qed.

Lemma frame_up j : writes_tokens_only (up j).
Proof.
  intros w. unfold up.
  destruct (up_loop _ j w) as [r|] eqn:E; [by eapply frame_up_loop | apply same_ci_refl].
Qed.

Lemma frame_down i0 n : writes_tokens_only (down i0 n).
Proof.
  intros w. unfold down.
  destruct (down_loop _ i0 i0 n w) as [r|] eqn:E;
    [by eapply frame_down_loop | apply same_ci_refl].
Qed.

Lemma frame_heap_Push x : writes_tokens_only (heap_Push x).
Proof.
  unfold heap_Push.
  apply frame_bind; [apply frame_rawQueue_Push|]; intros _.
  apply frame_bind; [apply frame_Len|]; intros n. apply frame_up.
Qed.

Lemma frame_heap_Pop : writes_tokens_only heap_Pop.
Proof.
  unfold heap_Pop.
  apply frame_bind; [apply frame_Len|]; intros n.
  apply frame_bind; [apply frame_Swap|]; intros _.
  apply frame_bind; [apply frame_down|]; intros _.
  apply frame_rawQueue_Pop.
Qed.

(** X4: on every state, well formed or not, and whether they return an
    error or not, [TargetQueue.Push] and [TargetQueue.Pop] leave every
    stored request's [ChainInfo] as it was and neither add nor drop a
    request: all they write to a request is its [index]. *)
Theorem Push_and_Pop_write_tokens_only (w : world TargetQueue) (p : ptr) (a : nat) :
  SyncRequest_ChainInfo <$> (mem (snd (TargetQueue_Push p w)) !! a)
  = SyncRequest_ChainInfo <$> (mem w !! a) /\
  SyncRequest_ChainInfo <$> (mem (snd (TargetQueue_Pop w)) !! a)
  = SyncRequest_ChainInfo <$> (mem w !! a).
Proof.
  destruct w as [m [l]]. split.
  - pose proof (frame_heap_Push p (World m l) a) as H.
    unfold TargetQueue_Push, on_q. simpl.
    by destruct (heap_Push p (World m l)) as [[[]|] w'].
  - pose proof (frame_heap_Pop (World m l) a) as H.
    unfold TargetQueue_Pop, on_q. simpl.
    by destruct (heap_Pop (World m l)) as [[r|] w'].
Qed.

(** ** rawQueue.Swap *)

(** X5: [rawQueue.Swap(i, j)] on two slots that hold distinct requests
    returns normally with the two slots exchanged, and writes [j] into the
    request that is now in slot [i] and [i] into the request that is now in
    slot [j]: each request is given the number of the slot it has left. *)
Theorem Swap_gives_each_request_the_slot_it_left (m : store) (l : rawQueue)
    (i j : Z) (ai aj : nat) (ri rj : SyncRequest) :
  0 <= i -> 0 <= j ->
  l !! Z.to_nat i = Some (Some ai) -> l !! Z.to_nat j = Some (Some aj) ->
  m !! ai = Some ri -> m !! aj = Some rj -> ai <> aj ->
  exists m' l',
    rawQueue_Swap i j (World m l) = (Ret tt, World m' l') /\
    l' !! Z.to_nat i = Some (Some aj) /\
    l' !! Z.to_nat j = Some (Some ai) /\
    (forall k, k <> Z.to_nat i -> k <> Z.to_nat j -> l' !! k = l !! k) /\
    m' !! aj = Some (mkSyncRequest (SyncRequest_ChainInfo rj) j) /\
    m' !! ai = Some (mkSyncRequest (SyncRequest_ChainInfo ri) i).
Proof.
  intros Hi Hj Hli Hlj Hai Haj Hne.
  assert (Z.to_nat i <> Z.to_nat j) as Hij by congruence.
  pose proof (lookup_lt_Some _ _ _ Hli) as Hleni.
  pose proof (lookup_lt_Some _ _ _ Hlj) as Hlenj.
  pose proof (lookup_lt_Some _ _ _ Hai) as Hlai.
  pose proof (lookup_lt_Some _ _ _ Haj) as Hlaj.
  set (l1 := <[Z.to_nat i := Some aj]> l).
  set (l2 := <[Z.to_nat j := Some ai]> l1).
  assert (Hl2i : l2 !! Z.to_nat i = Some (Some aj)).
  { unfold l2, l1. rewrite list_lookup_insert_ne by done.
    by rewrite list_lookup_insert_eq. }
  assert (Hl2j : l2 !! Z.to_nat j = Some (Some ai)).
  { unfold l2, l1. rewrite list_lookup_insert_eq; [done|]. by rewrite length_insert. }
  set (m1 := <[aj := mkSyncRequest (SyncRequest_ChainInfo rj) j]> m).
  assert (Hai1 : m1 !! ai = Some ri).
  { unfold m1. by rewrite list_lookup_insert_ne. }
  exists (<[ai := mkSyncRequest (SyncRequest_ChainInfo ri) i]> m1), l2.
  split; [|split; [done|split; [done|split; [|split]]]].
  - unfold rawQueue_Swap, bind.
    rewrite (slice_get_ok _ _ _ _ Hj Hlj), (slice_get_ok _ _ _ _ Hi Hli).
    rewrite slice_set_ok by (unfold slice_len; lia). fold l1.
    rewrite (slice_set_ok m l1 j)
      by (unfold slice_len, l1; rewrite length_insert; lia).
    fold l2. rewrite (slice_get_ok _ _ _ _ Hi Hl2i).
    rewrite (set_index_ok _ _ _ _ _ Haj). fold m1.
    rewrite (slice_get_ok _ _ _ _ Hj Hl2j).
    by rewrite (set_index_ok _ _ _ _ _ Hai1).
  - intros k Hki Hkj. unfold l2, l1. by rewrite !list_lookup_insert_ne.
  - rewrite list_lookup_insert_ne by done.
    unfold m1. by rewrite list_lookup_insert_eq.
  - rewrite list_lookup_insert_eq; [done|]. unfold m1. by rewrite length_insert.
Qed.

Lemma Swap_gives_each_request_the_slot_it_left_witness :
  exists m' l',
    rawQueue_Swap 0 1 Scenarios.two_slots = (Ret tt, World m' l') /\
    l' !! Z.to_nat 0 = Some (Some 1%nat) /\
    l' !! Z.to_nat 1 = Some (Some 0%nat) /\
    (forall k, k <> Z.to_nat 0 -> k <> Z.to_nat 1 ->
               l' !! k = self Scenarios.two_slots !! k) /\
    m' !! 1%nat = Some (mkSyncRequest Examples.high 1) /\
    m' !! 0%nat = Some (mkSyncRequest Examples.low 0).
Proof.
  apply (Swap_gives_each_request_the_slot_it_left Scenarios.two_mem
           [Some 0%nat; Some 1%nat] 0 1 0%nat 1%nat
           (mkSyncRequest Examples.low 0) (mkSyncRequest Examples.high 1));
    (lia || reflexivity).
Defined.

(** X6: [rawQueue.Swap] with an index outside the slice panics before it
    has written anything: the queue and the store are as they were. *)
Theorem Swap_out_of_range_panics_unchanged (w : world rawQueue) (i j : Z) :
  ~ (0 <= i < slice_len (self w) /\ 0 <= j < slice_len (self w)) ->
  rawQueue_Swap i j w = (Panicked, w).
Proof.
  intros Hout. unfold rawQueue_Swap, bind.
  destruct (slice_get j w) as [[pj|] w1] eqn:Ej.
  - pose proof (slice_get_ret _ _ _ _ Ej) as Hj.
    assert (w1 = w) as ->.
    { unfold slice_get in Ej.
      destruct ((0 <=? j) && (j <? slice_len (self w))); [|done].
      destruct (self w !! Z.to_nat j); by injection Ej. }
    unfold slice_get.
    destruct (0 <=? i) eqn:E1; simpl; [|done].
    destruct (i <? slice_len (self w)) eqn:E2; simpl; [|done].
    apply Z.leb_le in E1. apply Z.ltb_lt in E2. lia.
  - unfold slice_get in Ej.
    destruct ((0 <=? j) && (j <? slice_len (self w))); [|by injection Ej as <-].
    destruct (self w !! Z.to_nat j); [done | by injection Ej as <-].
Qed.

Lemma Swap_out_of_range_panics_unchanged_witness :
  rawQueue_Swap 0 (-1) (World [] []) = (Panicked, World [] []).
Proof.
  apply (Swap_out_of_range_panics_unchanged (World [] []) 0 (-1)).
  unfold slice_len. simpl. lia.
Defined.

(** ** The sift loops *)

(** X7: the loops [up] and [down] that [heap.Push] and [heap.Pop] run over
    [rawQueue.Less] and [rawQueue.Swap] come to an end on every queue and
    every store, well formed or not, from every start: within [j + 1]
    iterations for [up] from slot [j], and within [n - i0 + 1] for [down]
    from slot [i0] with bound [n]. *)
Theorem sift_loops_terminate (w : world rawQueue) (j i0 n : Z) :
  is_Some (up_loop (S (Z.to_nat j)) j w) /\
  is_Some (down_loop (S (Z.to_nat (n - i0))) i0 i0 n w).
Proof.
  split; [apply up_loop_total | apply down_loop_total]; lia.
Qed.

(** ** TargetQueue.Push and TargetQueue.Pop on reachable queues *)

Lemma tq5_reachable : tq_reachable Scenarios.tq5.
Proof. eapply reach_step; [apply tq4_reachable | apply step_new]. Qed.

Lemma keyp_Some m a r :
  m !! a = Some r -> keyp m (Some a) = Height (SyncRequest_ChainInfo r).
Proof. intros Ha. simpl. by rewrite Ha. Qed.

Lemma Pop_Some_inv w a w' :
  tq_inv w -> TargetQueue_Pop w = ((Some a, None), w') ->
  exists r,
    q (self w) !! 0%nat = Some (Some a) /\ mem w !! a = Some r /\
    mem w' !! a = Some (mkSyncRequest (SyncRequest_ChainInfo r) (-1)) /\
    tq_inv w' /\ same_ci (mem w) (mem w') /\
    q (self w) ≡ₚ Some a :: q (self w').
Proof.
  intros Hinv Hpop.
  destruct (decide (0 < TargetQueue_Len w)) as [Hlen|Hlen].
  - destruct (TargetQueue_Pop_ok w Hinv Hlen) as (a1 & r & w1 & Hrun & H).
    rewrite Hrun in Hpop. injection Hpop as <- <-. by exists r.
  - rewrite TargetQueue_Pop_empty in Hpop; [done|].
    unfold TargetQueue_Len, slice_len in *. lia.
Qed.

(** X1: on a reachable queue, [TargetQueue.Push] of a pointer to an
    allocated request returns a nil error; the queue is one longer and
    holds what it held before together with the new pointer (nothing is
    lost, nothing else is added), even when that pointer is queued
    already. *)
Theorem Push_of_a_request_succeeds (w : world TargetQueue) (a : nat) :
  tq_reachable w -> is_Some (mem w !! a) ->
  exists w',
    TargetQueue_Push (Some a) w = (None, w') /\
    TargetQueue_Len w' = TargetQueue_Len w + 1 /\
    q (self w') ≡ₚ Some a :: q (self w).
Proof.
  intros Hreach [r Hr].
  destruct (TargetQueue_Push_ok w a r (tq_reachable_inv w Hreach) Hr)
    as (w' & Hrun & _ & _ & Hperm).
  exists w'. split; [done|]. split; [|done].
  apply Permutation_length in Hperm. simpl in Hperm.
  unfold TargetQueue_Len, slice_len. lia.
Qed.

Lemma Push_of_a_request_succeeds_witness :
  exists w',
    TargetQueue_Push (Some 2%nat) Scenarios.tq5 = (None, w') /\
    TargetQueue_Len w' = TargetQueue_Len Scenarios.tq5 + 1 /\
    q (self w') ≡ₚ Some 2%nat :: q (self Scenarios.tq5).
Proof.
  apply (Push_of_a_request_succeeds Scenarios.tq5 2%nat);
    [apply tq5_reachable | by eexists].
Defined.

(** X2: on a reachable queue, the request a successful [TargetQueue.Pop]
    returns is the one in slot 0, its height is at least the height of
    every queued request, and the queue afterwards holds what it held
    before without one occurrence of that request. *)
Theorem Pop_returns_a_highest_request (w w' : world TargetQueue) (a : nat) :
  tq_reachable w -> TargetQueue_Pop w = ((Some a, None), w') ->
  q (self w) !! 0%nat = Some (Some a) /\
  q (self w) ≡ₚ Some a :: q (self w') /\
  forall b ra rb,
    Some b ∈ q (self w) -> mem w !! a = Some ra -> mem w !! b = Some rb ->
    (Height (SyncRequest_ChainInfo rb) <= Height (SyncRequest_ChainInfo ra))%N.
Proof.
  intros Hreach Hpop.
  pose proof (tq_reachable_inv w Hreach) as Hinv.
  destruct (Pop_Some_inv w a w' Hinv Hpop) as (r & Hl0 & Ha & _ & _ & _ & Hperm).
  split; [done|]. split; [done|].
  intros b ra rb Hb Hra Hrb. destruct Hinv as [Hwf Hheap].
  pose proof (heap_root_greatest _ _ _ Hwf Hheap Hl0 (Some b) Hb) as H.
  by rewrite (keyp_Some _ _ _ Hra), (keyp_Some _ _ _ Hrb) in H.
Qed.

Lemma Pop_returns_a_highest_request_witness :
  q (self Examples.tq4) !! 0%nat = Some (Some 1%nat) /\
  q (self Examples.tq4) ≡ₚ Some 1%nat :: q (self (snd (TargetQueue_Pop Examples.tq4))) /\
  forall b ra rb,
    Some b ∈ q (self Examples.tq4) ->
    mem Examples.tq4 !! 1%nat = Some ra -> mem Examples.tq4 !! b = Some rb ->
    (Height (SyncRequest_ChainInfo rb) <= Height (SyncRequest_ChainInfo ra))%N.
Proof.
  apply (Pop_returns_a_highest_request Examples.tq4
           (snd (TargetQueue_Pop Examples.tq4)) 1%nat);
    [apply tq4_reachable | reflexivity].
Defined.

(** X3: on a reachable queue, the request a successful [TargetQueue.Pop]
    returns has its [index] set to -1 and its [ChainInfo] untouched. *)
Theorem Pop_invalidates_the_token (w w' : world TargetQueue) (a : nat) :
  tq_reachable w -> TargetQueue_Pop w = ((Some a, None), w') ->
  exists r,
    mem w !! a = Some r /\
    mem w' !! a = Some (mkSyncRequest (SyncRequest_ChainInfo r) (-1)).
Proof.
  intros Hreach Hpop.
  destruct (Pop_Some_inv w a w' (tq_reachable_inv w Hreach) Hpop)
    as (r & _ & Ha & Ha' & _).
  by exists r.
Qed.

Lemma Pop_invalidates_the_token_witness :
  exists r,
    mem Examples.tq4 !! 1%nat = Some r /\
    mem (snd (TargetQueue_Pop Examples.tq4)) !! 1%nat
    = Some (mkSyncRequest (SyncRequest_ChainInfo r) (-1)).
Proof.
  apply (Pop_invalidates_the_token Examples.tq4
           (snd (TargetQueue_Pop Examples.tq4)) 1%nat);
    [apply tq4_reachable | reflexivity].
Defined.

(** X16: pushing onto a reachable queue a request strictly higher than
    every queued one and popping at once gives that very request back,
    both without error, and the queue then holds what it held before the
    push. *)
Theorem Push_then_Pop_returns_the_strictly_highest (w : world TargetQueue)
    (a : nat) (r : SyncRequest) :
  tq_reachable w -> mem w !! a = Some r ->
  (forall b rb, Some b ∈ q (self w) -> mem w !! b = Some rb ->
     (Height (SyncRequest_ChainInfo rb) < Height (SyncRequest_ChainInfo r))%N) ->
  exists w1 w2,
    TargetQueue_Push (Some a) w = (None, w1) /\
    TargetQueue_Pop w1 = ((Some a, None), w2) /\
    q (self w2) ≡ₚ q (self w).
Proof.
  intros Hreach Ha Hhigh.
  pose proof (tq_reachable_inv w Hreach) as Hinv.
  destruct (TargetQueue_Push_ok w a r Hinv Ha) as (w1 & Hpush & Hinv1 & Hci1 & Hperm1).
  assert (0 < TargetQueue_Len w1) as Hlen.
  { apply Permutation_length in Hperm1. simpl in Hperm1.
    unfold TargetQueue_Len, slice_len. lia. }
  destruct (TargetQueue_Pop_ok w1 Hinv1 Hlen)
    as (a' & r' & w2 & Hpop & Hl0 & Ha' & _ & _ & _ & Hperm2).
  assert (a' = a) as ->.
  { assert (Some a' ∈ q (self w1)) as Hin by (rewrite Hperm2; left).
    rewrite Hperm1 in Hin. apply elem_of_cons in Hin as [[= ->] | Hin]; [done|].
    exfalso. destruct Hinv as [Hwf _], Hinv1 as [Hwf1 Hheap1].
    destruct (proj1 (List.Forall_forall _ _) Hwf (Some a')) as (b & rb & [= <-] & Hrb).
    { by apply list_elem_of_In. }
    pose proof (Hhigh a' rb Hin Hrb) as Hlt.
    assert (Some a ∈ q (self w1)) as Hain by (rewrite Hperm1; left).
    pose proof (heap_root_greatest _ _ _ Hwf1 Hheap1 Hl0 (Some a) Hain) as Hle.
    rewrite !(same_ci_keyp _ _ _ Hci1) in Hle.
    rewrite (keyp_Some _ _ _ Ha), (keyp_Some _ _ _ Hrb) in Hle. lia. }
  exists w1, w2. split; [done|]. split; [done|].
  rewrite Hperm2 in Hperm1. by apply Permutation_cons_inv in Hperm1.
Qed.

Lemma Push_then_Pop_returns_the_strictly_highest_witness :
  exists w1 w2,
    TargetQueue_Push (Some 2%nat) Scenarios.tq5 = (None, w1) /\
    TargetQueue_Pop w1 = ((Some 2%nat, None), w2) /\
    q (self w2) ≡ₚ q (self Scenarios.tq5).
Proof.
  apply (Push_then_Pop_returns_the_strictly_highest Scenarios.tq5 2%nat
           (mkSyncRequest Scenarios.top 0)).
  - apply tq5_reachable.
  - reflexivity.
  - intros b rb Hb Hrb.
    apply elem_of_cons in Hb as [[= ->] | Hb].
    { injection Hrb as <-. reflexivity. }
    apply elem_of_cons in Hb as [[= ->] | Hb].
    { injection Hrb as <-. reflexivity. }
    by apply elem_of_nil in Hb.
Defined.

(** ** The descriptors held by the dispatcher's queue *)

Lemma omap_ext_Forall {A B} (f g : A -> option B) (l : list A) :
  Forall (fun x => f x = g x) l -> omap f l = omap g l.
Proof.
  induction 1 as [|x l Hx _ IH]; [done|].
  csimpl. rewrite Hx, IH. done.
Qed.

Lemma ci_of_same_ci m m' p : same_ci m m' -> ci_of m' p = ci_of m p.
Proof. intros H. destruct p as [a|]; [apply H | done]. Qed.

Lemma queued_same_ci m m' (l : rawQueue) :
  same_ci m m' -> omap (ci_of m') l = omap (ci_of m) l.
Proof.
  intros H. apply omap_ext_Forall, List.Forall_forall. intros p _.
  by apply ci_of_same_ci.
Qed.

Lemma queued_alloc m r (l : rawQueue) :
  wf m l -> omap (ci_of (m ++ [r])) l = omap (ci_of m) l.
Proof.
  intros Hwf. apply omap_ext_Forall. eapply Forall_impl; [exact Hwf|].
  intros p (a & r' & -> & Ha). unfold ci_of.
  by rewrite (lookup_app_l_Some _ _ _ _ Ha), Ha.
Qed.

Lemma queued_length m (l : rawQueue) :
  wf m l -> length (omap (ci_of m) l) = length l.
Proof.
  induction 1 as [|p l (a & r & -> & Ha) _ IH]; [done|].
  csimpl. unfold ci_of at 1. rewrite Ha. csimpl. f_equal. exact IH.
Qed.

Lemma same_ci_same_length m m' : same_ci m m' -> length m' = length m.
Proof.
  intros H. apply Nat.le_antisymm; apply Nat.nlt_ge; intros Hlt.
  - specialize (H (length m)).
    rewrite (lookup_ge_None_2 m) in H by lia.
    destruct (lookup_lt_is_Some_2 m' (length m) Hlt) as [r Hr].
    by rewrite Hr in H.
  - specialize (H (length m')).
    rewrite (lookup_ge_None_2 m') in H by lia.
    destruct (lookup_lt_is_Some_2 m (length m') Hlt) as [r Hr].
    by rewrite Hr in H.
Qed.

Lemma receive_fresh_queued ci w :
  tq_inv (tq_of w) -> key ci ∉ targetSet (self w) ->
  exists w',
    receive ci w = (None, w') /\ tq_inv (tq_of w') /\
    targetSet (self w') = {[key ci]} ∪ targetSet (self w) /\
    queued (tq_of w') ≡ₚ ci :: queued (tq_of w) /\
    length (mem w') = S (length (mem w)).
Proof.
  destruct w as [m [S [l]]]. intros [Hwf Hheap] Hnew. simpl in *.
  set (r := mkSyncRequest ci 0).
  assert (Hinv1 : tq_inv (World (m ++ [r]) (mkTargetQueue l))).
  { split; simpl; [by apply wf_alloc | by apply heap_ok_alloc]. }
  assert (Hr : (m ++ [r]) !! length m = Some r).
  { rewrite lookup_app_r by lia. by rewrite Nat.sub_diag. }
  destruct (TargetQueue_Push_ok _ (length m) r Hinv1 Hr)
    as ([m' [l']] & Hrun & Hinv' & Hci & Hperm).
  simpl in *.
  exists (World m' (mkDispatcher ({[key ci]} ∪ S) (mkTargetQueue l'))).
  split; [|split; [done|split; [done|split]]].
  - unfold receive. fold (key ci). simpl. rewrite decide_False by done.
    unfold on_targetQ. simpl. fold r. by rewrite Hrun.
  - unfold queued. cbn [tq_of mem self targetQ q]. rewrite Hperm.
    rewrite (queued_same_ci _ _ _ Hci). simpl. rewrite Hr. simpl.
    by rewrite (queued_alloc _ _ _ Hwf).
  - simpl. rewrite (same_ci_same_length _ _ Hci), length_app. simpl. lia.
Qed.

Lemma Pop_queued w a w' :
  tq_inv w -> TargetQueue_Pop w = ((Some a, None), w') ->
  exists r,
    mem w !! a = Some r /\
    queued w ≡ₚ SyncRequest_ChainInfo r :: queued w'.
Proof.
  intros Hinv Hpop.
  destruct (Pop_Some_inv w a w' Hinv Hpop) as (r & _ & Ha & _ & _ & Hci & Hperm).
  exists r. split; [done|]. unfold queued.
  rewrite (queued_same_ci _ _ _ Hci), Hperm. simpl. by rewrite Ha.
Qed.

Lemma pop_target_cases w :
  tq_inv (tq_of w) ->
  (TargetQueue_Len (tq_of w) = 0 /\ pop_target w = ((None, Some errBadPop), w)) \/
  (exists a r w',
     pop_target w = ((Some a, None), w') /\ mem w !! a = Some r /\
     targetSet (self w') = targetSet (self w) /\ tq_inv (tq_of w') /\
     queued (tq_of w) ≡ₚ SyncRequest_ChainInfo r :: queued (tq_of w')).
Proof.
  intros Hinv. rewrite pop_target_eq.
  destruct (decide (0 < TargetQueue_Len (tq_of w))) as [Hlen|Hlen].
  - right. destruct (TargetQueue_Pop_ok _ Hinv Hlen) as (a & r & w1 & Hrun & _).
    destruct (Pop_queued _ _ _ Hinv Hrun) as (r' & Hr' & Hq).
    destruct (Pop_Some_inv _ _ _ Hinv Hrun) as (_ & _ & _ & _ & Hinv1 & _).
    rewrite Hrun. simpl. eexists a, r', _. split; [done|]. split; [done|].
    split; [done|]. split; by destruct w1.
  - left. assert (TargetQueue_Len (tq_of w) = 0) as H0
      by (unfold TargetQueue_Len, slice_len in *; lia).
    split; [done|]. rewrite TargetQueue_Pop_empty by done.
    simpl. by destruct w as [m [S [l]]].
Qed.

(** The queued descriptors have pairwise distinct heads, all tracked. *)
Lemma observed_tracks w k :
  observed w k ->
  NoDup (map key (queued (tq_of w))) /\
  forall ci, ci ∈ queued (tq_of w) -> key ci ∈ targetSet (self w).
Proof.
  intros Hobs. pose proof Hobs as Hinvs.
  induction Hobs as [m | w k e ci Hobs IH | w k req w' Hobs IH Hpop
                    | w k req err w' Hobs IH Hpop].
  - rewrite NewDispatcher_eq. split; [apply NoDup_nil_2|].
    intros ci Hin. by apply elem_of_nil in Hin.
  - destruct (IH Hobs) as [Hnd Hsub]. rewrite call_receive.
    destruct (decide (key ci ∈ targetSet (self w))) as [Hin|Hnew].
    { by rewrite receive_tracked. }
    destruct (observed_inv w k Hobs) as [Hinv _].
    destruct (receive_fresh_queued ci w Hinv Hnew) as (w' & -> & _ & Hset & Hq & _).
    simpl. split.
    + rewrite Hq. simpl. apply NoDup_cons. split; [|done].
      intros Hin. apply list_elem_of_In, in_map_iff in Hin as (ci' & Hk & Hin).
      apply Hnew. rewrite <- Hk. apply Hsub. by apply list_elem_of_In.
    + intros ci' Hin. rewrite Hset. rewrite Hq in Hin.
      apply elem_of_cons in Hin as [-> | Hin].
      * apply elem_of_union_l. by apply elem_of_singleton.
      * apply elem_of_union_r. by apply Hsub.
  - destruct (IH Hobs) as [Hnd Hsub].
    destruct (observed_inv w k Hobs) as [Hinv _].
    destruct (pop_target_cases w Hinv) as [[_ Hrun] | (a & r & w1 & Hrun & _ & Hset & _ & Hq)].
    { rewrite Hrun in Hpop. congruence. }
    rewrite Hrun in Hpop. injection Hpop as _ <-.
    rewrite Hq in Hnd. simpl in Hnd. apply NoDup_cons in Hnd as [_ Hnd].
    split; [done|]. intros ci Hin. rewrite Hset. apply Hsub.
    rewrite Hq. by right.
  - destruct (IH Hobs) as [Hnd Hsub].
    destruct (observed_inv w k Hobs) as [Hinv _].
    destruct (pop_target_cases w Hinv) as [[_ Hrun] | (a & r & w1 & Hrun & _)].
    + rewrite Hrun in Hpop. by injection Hpop as _ _ <-.
    + rewrite Hrun in Hpop. congruence.
Qed.

(** ** The dispatcher, as its callers see it *)

Lemma submit_all_observed subs w k :
  observed w k -> observed (snd (submit_all subs w)) k.
Proof.
  revert w. induction subs as [|[e ci] subs IH]; intros w Hobs; [done|].
  simpl. pose proof (obs_receive w k e ci Hobs) as H1.
  destruct (call e ci w) as [err w1]. simpl in H1.
  specialize (IH w1 H1). by destruct (submit_all subs w1) as [errs w2].
Qed.

Lemma d3_observed : observed Scenarios.d3 0.
Proof. apply submit_all_observed. apply obs_New. Qed.

Lemma submit_all_fresh_queued subs w :
  tq_inv (tq_of w) ->
  NoDup (map (fun s => key (snd s)) subs) ->
  (forall s, s ∈ subs -> key (snd s) ∉ targetSet (self w)) ->
  exists w',
    submit_all subs w = (map (fun _ => None) subs, w') /\
    tq_inv (tq_of w') /\
    queued (tq_of w') ≡ₚ map snd subs ++ queued (tq_of w).
Proof.
  revert w. induction subs as [|[e ci] subs IH]; intros w Hinv Hnd Hnew.
  { by exists w. }
  simpl in Hnd. apply NoDup_cons in Hnd as [Hci Hnd].
  destruct (receive_fresh_queued ci w Hinv) as (w1 & Hrun & Hinv1 & Hset & Hq1 & _).
  { apply (Hnew (e, ci)). by left. }
  destruct (IH w1 Hinv1 Hnd) as (w' & Hrun' & Hinv' & Hq').
  { intros s Hs. rewrite Hset. intros [Heq%elem_of_singleton | Hin]%elem_of_union.
    - apply Hci. rewrite <- Heq. apply list_elem_of_In, in_map_iff.
      exists s. split; [done|]. by apply list_elem_of_In.
    - apply (Hnew s); [by right | done]. }
  exists w'. split; [|split; [done|]].
  - simpl. by rewrite call_receive, Hrun, Hrun'.
  - rewrite Hq', Hq1. simpl. by rewrite <- Permutation_middle.
Qed.

Lemma queued_Len w :
  tq_inv w -> Z.of_nat (length (queued w)) = TargetQueue_Len w.
Proof.
  intros [Hwf _]. unfold queued. rewrite (queued_length _ _ Hwf). done.
Qed.

(** X8: in every state reached from a new dispatcher by submissions and
    pops, each of the three entry points returns a nil error, whatever the
    descriptor: the push inside [receive] does not fail there. *)
Theorem entry_points_never_fail (w : world Dispatcher) (k : nat)
    (e : entry) (ci : ChainInfo) :
  observed w k -> fst (call e ci w) = None.
Proof.
  intros Hobs. rewrite call_receive.
  destruct (decide (key ci ∈ targetSet (self w))) as [Hin|Hnew].
  - by rewrite receive_tracked.
  - destruct (observed_inv w k Hobs) as [Hinv _].
    by destruct (receive_fresh ci w Hinv Hnew) as (w' & -> & _).
Qed.

Lemma entry_points_never_fail_witness :
  fst (call GossipBlock Examples.ciA10 Scenarios.d3) = None.
Proof. apply (entry_points_never_fail Scenarios.d3 0). apply d3_observed. Defined.

(** X9: in every such state, a descriptor whose head is not tracked is
    accepted: the entry point returns nil, one new request is allocated,
    the queue holds the descriptor itself beside what it held (one entry
    more), and the head's key is now in the dedup set. *)
Theorem untracked_head_is_queued_and_tracked (w : world Dispatcher) (k : nat)
    (e : entry) (ci : ChainInfo) :
  observed w k -> key ci ∉ targetSet (self w) ->
  exists w',
    call e ci w = (None, w') /\
    targetSet (self w') = {[key ci]} ∪ targetSet (self w) /\
    queued (tq_of w') ≡ₚ ci :: queued (tq_of w) /\
    TargetQueue_Len (tq_of w') = TargetQueue_Len (tq_of w) + 1 /\
    length (mem w') = S (length (mem w)).
Proof.
  intros Hobs Hnew. destruct (observed_inv w k Hobs) as [Hinv _].
  destruct (receive_fresh_queued ci w Hinv Hnew) as (w' & Hrun & Hinv' & Hset & Hq & Hlen).
  exists w'. rewrite call_receive. split; [done|]. split; [done|].
  split; [done|]. split; [|done].
  rewrite <- (queued_Len _ Hinv'), <- (queued_Len _ Hinv), Hq. simpl. lia.
Qed.

Lemma untracked_head_is_queued_and_tracked_witness :
  exists w',
    call Hello Examples.ciA10 Scenarios.d3 = (None, w') /\
    targetSet (self w') = {[key Examples.ciA10]} ∪ targetSet (self Scenarios.d3) /\
    queued (tq_of w') ≡ₚ Examples.ciA10 :: queued (tq_of Scenarios.d3) /\
    TargetQueue_Len (tq_of w') = TargetQueue_Len (tq_of Scenarios.d3) + 1 /\
    length (mem w') = S (length (mem Scenarios.d3)).
Proof.
  apply (untracked_head_is_queued_and_tracked Scenarios.d3 0).
  - apply d3_observed.
  - apply (bool_decide_unpack _). vm_compute. exact I.
Defined.

(** X10: in every such state the queued descriptors have pairwise
    distinct heads, and the key of each of them is in the dedup set: at
    most one request per head is queued, and no queued head is
    untracked. *)
Theorem one_queued_request_per_tracked_head (w : world Dispatcher) (k : nat) :
  observed w k ->
  NoDup (map key (queued (tq_of w))) /\
  forall ci, ci ∈ queued (tq_of w) -> key ci ∈ targetSet (self w).
Proof. apply observed_tracks. Qed.

Lemma one_queued_request_per_tracked_head_witness :
  NoDup (map key (queued (tq_of Scenarios.d3))) /\
  forall ci, ci ∈ queued (tq_of Scenarios.d3) -> key ci ∈ targetSet (self Scenarios.d3).
Proof. apply (one_queued_request_per_tracked_head Scenarios.d3 0). apply d3_observed. Defined.

(** X11: in every such state, submitting a descriptor a second time, by
    any entry point, changes nothing and returns nil: after the first
    submission the head is tracked, whether it was before or not. *)
Theorem resubmission_is_a_no_op (w : world Dispatcher) (k : nat)
    (e e' : entry) (ci : ChainInfo) :
  observed w k ->
  call e' ci (snd (call e ci w)) = (None, snd (call e ci w)).
Proof.
  intros Hobs. rewrite !call_receive.
  destruct (decide (key ci ∈ targetSet (self w))) as [Hin|Hnew].
  - rewrite (receive_tracked ci w Hin). simpl. by apply receive_tracked.
  - destruct (observed_inv w k Hobs) as [Hinv _].
    destruct (receive_fresh ci w Hinv Hnew) as (w' & -> & _ & Hset & _).
    simpl. apply receive_tracked. rewrite Hset.
    apply elem_of_union_l. by apply elem_of_singleton.
Qed.

Lemma resubmission_is_a_no_op_witness :
  call OwnBlock Examples.ciA10 (snd (call Hello Examples.ciA10 Scenarios.d3))
  = (None, snd (call Hello Examples.ciA10 Scenarios.d3)).
Proof. apply (resubmission_is_a_no_op Scenarios.d3 0). apply d3_observed. Defined.

(** X12: on every state, an entry point never takes a key out of the
    dedup set, whether it returns an error or not, and [Pop] on the
    dispatcher's queue leaves the set as it is: the set only grows. *)
Theorem dedup_set_never_shrinks (w : world Dispatcher) (e : entry) (ci : ChainInfo) :
  targetSet (self w) ⊆ targetSet (self (snd (call e ci w))) /\
  targetSet (self (snd (pop_target w))) = targetSet (self w).
Proof.
  split.
  - rewrite call_receive. unfold receive.
    destruct (decide _) as [Hin|Hnew]; [done|].
    unfold on_targetQ, new_SyncRequest. simpl.
    destruct (TargetQueue_Push _ _) as [[err|] w2]; simpl; [done|].
    apply union_subseteq_r.
  - by rewrite pop_target_eq.
Qed.

(** X13: on every state, a head that is tracked is still dropped after a
    [Pop], whatever the [Pop] returned: the entry point returns nil and
    changes nothing, so a head whose request has been popped is never
    queued again. *)
Theorem tracked_head_stays_dropped_after_Pop (w : world Dispatcher)
    (e : entry) (ci : ChainInfo) :
  key ci ∈ targetSet (self w) ->
  call e ci (snd (pop_target w)) = (None, snd (pop_target w)).
Proof.
  intros Hin. rewrite call_receive. apply receive_tracked.
  by rewrite pop_target_eq.
Qed.

Lemma tracked_head_stays_dropped_after_Pop_witness :
  call Hello Examples.ciA100 (snd (pop_target Examples.d1))
  = (None, snd (pop_target Examples.d1)).
Proof.
  apply (tracked_head_stays_dropped_after_Pop Examples.d1).
  apply (bool_decide_unpack _). vm_compute. exact I.
Defined.

(** X14: any number of descriptors with pairwise distinct heads, submitted
    to a new dispatcher through any entry points, are all accepted without
    error: the queue has exactly one entry per descriptor and holds those
    very descriptors, and the dedup set has as many keys. *)
Theorem distinct_heads_are_all_queued (m : store) (subs : list (entry * ChainInfo)) :
  NoDup (map (fun s => key (snd s)) subs) ->
  exists w,
    submit_all subs (NewDispatcher m) = (map (fun _ => None) subs, w) /\
    TargetQueue_Len (tq_of w) = Z.of_nat (length subs) /\
    size (targetSet (self w)) = length subs /\
    queued (tq_of w) ≡ₚ map snd subs.
Proof.
  intros Hnd.
  destruct (submit_all_fresh_queued subs (NewDispatcher m)) as (w & Hrun & Hinv & Hq).
  { apply (NewTargetQueue_inv m). }
  { done. }
  { intros s _. rewrite NewDispatcher_eq. simpl. apply not_elem_of_empty. }
  rewrite NewDispatcher_eq in Hq.
  change (queued (tq_of (World m (mkDispatcher ∅ (mkTargetQueue []))))) with (@nil ChainInfo) in Hq.
  rewrite app_nil_r in Hq.
  assert (Hlen : TargetQueue_Len (tq_of w) = Z.of_nat (length subs)).
  { rewrite <- (queued_Len _ Hinv), Hq. by rewrite length_map. }
  exists w. split; [done|]. split; [done|]. split; [|done].
  pose proof (submit_all_observed subs _ 0 (obs_New m)) as Hobs.
  rewrite Hrun in Hobs. simpl in Hobs.
  destruct (observed_inv _ _ Hobs) as [_ Hsize]. lia.
Qed.

Lemma distinct_heads_are_all_queued_witness :
  exists w,
    submit_all Scenarios.three (NewDispatcher [])
    = (map (fun _ => None) Scenarios.three, w) /\
    TargetQueue_Len (tq_of w) = Z.of_nat (length Scenarios.three) /\
    size (targetSet (self w)) = length Scenarios.three /\
    queued (tq_of w) ≡ₚ map snd Scenarios.three.
Proof.
  apply (distinct_heads_are_all_queued [] Scenarios.three).
  apply (bool_decide_unpack _). vm_compute. exact I.
Defined.

Lemma drain_descriptors w :
  tq_inv w ->
  exists rs w',
    drain w = Some (rs, w') /\
    Forall (fun r => live (mem w') (fst r) /\ snd r = None) rs /\
    popped_descriptors (mem w') rs ≡ₚ queued w /\
    non_increasing (popped_heights (mem w') rs).
Proof.
  intros Hinv.
  destruct (drain_loop_ok (S (length (q (self w)))) w Hinv ltac:(lia))
    as (rs & w' & Hrun & _ & _ & Hci & Hall & Hperm & Hsorted).
  exists rs, w'. split; [done|]. split; [done|]. split; [|done].
  unfold popped_descriptors, queued. rewrite Hperm.
  by rewrite (queued_same_ci _ _ _ Hci).
Qed.

Lemma popped_heights_descriptors m rs :
  Forall (fun r : ptr * option error => live m (fst r) /\ snd r = None) rs ->
  popped_heights m rs = map Height (popped_descriptors m rs).
Proof.
  induction 1 as [|[p e] rs [(a & r & Hp & Ha) _] _ IH]; [done|].
  simpl in Hp. subst p. unfold popped_heights, popped_descriptors in *.
  csimpl. unfold ci_of at 1. rewrite Ha. csimpl. f_equal. exact IH.
Qed.

(** X15: draining a reachable queue returns requests whose descriptors
    are exactly the queued ones, each as often as it was queued. *)
Theorem drain_returns_the_queued_descriptors (w : world TargetQueue) :
  tq_reachable w ->
  exists rs w',
    drain w = Some (rs, w') /\
    popped_descriptors (mem w') rs ≡ₚ queued w /\
    length rs = length (q (self w)).
Proof.
  intros Hreach. pose proof (tq_reachable_inv w Hreach) as Hinv.
  destruct (drain_loop_ok (S (length (q (self w)))) w Hinv ltac:(lia))
    as (rs & w' & Hrun & _ & _ & Hci & _ & Hperm & _).
  exists rs, w'. split; [done|]. split.
  - unfold popped_descriptors, queued. rewrite Hperm.
    by rewrite (queued_same_ci _ _ _ Hci).
  - by rewrite <- Hperm, length_map.
Qed.

Lemma drain_returns_the_queued_descriptors_witness :
  exists rs w',
    drain Examples.tq4 = Some (rs, w') /\
    popped_descriptors (mem w') rs ≡ₚ queued Examples.tq4 /\
    length rs = length (q (self Examples.tq4)).
Proof.
  apply (drain_returns_the_queued_descriptors Examples.tq4). apply tq4_reachable.
Defined.

(** X17: descriptors with pairwise distinct heads, submitted to a new
    dispatcher through any entry points and then drained, come back
    without error as exactly the submitted descriptors, in an order of
    non-increasing height. *)
Theorem submitted_descriptors_come_back_by_height
    (m : store) (subs : list (entry * ChainInfo)) :
  NoDup (map (fun s => key (snd s)) subs) ->
  exists w rs w',
    submit_all subs (NewDispatcher m) = (map (fun _ => None) subs, w) /\
    drain (tq_of w) = Some (rs, w') /\
    Forall (fun r => fst r <> None /\ snd r = None) rs /\
    popped_descriptors (mem w') rs ≡ₚ map snd subs /\
    non_increasing (map Height (popped_descriptors (mem w') rs)).
Proof.
  intros Hnd.
  destruct (submit_all_fresh_queued subs (NewDispatcher m)) as (w & Hrun & Hinv & Hq).
  { apply (NewTargetQueue_inv m). }
  { done. }
  { intros s _. rewrite NewDispatcher_eq. simpl. apply not_elem_of_empty. }
  rewrite NewDispatcher_eq in Hq.
  change (queued (tq_of (World m (mkDispatcher ∅ (mkTargetQueue []))))) with (@nil ChainInfo) in Hq.
  rewrite app_nil_r in Hq.
  destruct (drain_descriptors _ Hinv) as (rs & w' & Hdrain & Hall & Hperm & Hsorted).
  exists w, rs, w'. split; [done|]. split; [done|]. split; [|split].
  - eapply Forall_impl; [exact Hall|]. intros [p e] [(a & r & -> & _) He]. done.
  - by rewrite Hperm.
  - by rewrite <- (popped_heights_descriptors _ _ Hall).
Qed.

Lemma submitted_descriptors_come_back_by_height_witness :
  exists w rs w',
    submit_all Scenarios.three (NewDispatcher [])
    = (map (fun _ => None) Scenarios.three, w) /\
    drain (tq_of w) = Some (rs, w') /\
    Forall (fun r => fst r <> None /\ snd r = None) rs /\
    popped_descriptors (mem w') rs ≡ₚ map snd Scenarios.three /\
    non_increasing (map Height (popped_descriptors (mem w') rs)).
Proof.
  apply (submitted_descriptors_come_back_by_height [] Scenarios.three).
  apply (bool_decide_unpack _). vm_compute. exact I.
Defined.

(** ** rawQueue.Push and rawQueue.Pop, unwrapped *)

(** X18: on every queue, [rawQueue.Push] of a pointer to an allocated
    request appends it as the last slot and writes that slot's number
    into its [index]; a [rawQueue.Pop] right after returns the same
    pointer, leaves the slice as it was before the push, sets the
    request's [index] to -1, and no other request has been written. *)
Theorem rawQueue_Push_then_Pop (m : store) (l : rawQueue) (a : nat) (r : SyncRequest) :
  m !! a = Some r ->
  rawQueue_Push (Some a) (World m l)
  = (Ret tt, World (<[a := mkSyncRequest (SyncRequest_ChainInfo r) (slice_len l)]> m)
                   (l ++ [Some a])) /\
  exists m',
    (rawQueue_Push (Some a) ;;; rawQueue_Pop) (World m l)
    = (Ret (Some a), World m' l) /\
    m' !! a = Some (mkSyncRequest (SyncRequest_ChainInfo r) (-1)) /\
    forall b, b <> a -> m' !! b = m !! b.
Proof.
  intros Ha. pose proof (lookup_lt_Some _ _ _ Ha) as Hlt.
  set (m1 := <[a := mkSyncRequest (SyncRequest_ChainInfo r) (slice_len l)]> m).
  assert (Hpush : rawQueue_Push (Some a) (World m l)
                  = (Ret tt, World m1 (l ++ [Some a]))).
  { unfold rawQueue_Push, bind, rawQueue_Len. simpl. by rewrite Ha. }
  split; [done|].
  assert (Ha1 : m1 !! a = Some (mkSyncRequest (SyncRequest_ChainInfo r) (slice_len l))).
  { unfold m1. by rewrite list_lookup_insert_eq. }
  assert (Hlen : slice_len (l ++ [Some a]) - 1 = slice_len l).
  { unfold slice_len. rewrite length_app. simpl. lia. }
  assert (Hlast : (l ++ [Some a]) !! Z.to_nat (slice_len l) = Some (Some a)).
  { unfold slice_len. rewrite Nat2Z.id. apply list_lookup_middle. done. }
  exists (<[a := mkSyncRequest (SyncRequest_ChainInfo r) (-1)]> m1).
  split; [|split].
  - unfold bind at 1. rewrite Hpush.
    unfold rawQueue_Pop, bind, rawQueue_Len. cbn [self mem]. rewrite Hlen.
    assert (0 <= slice_len l) as Hl0 by (unfold slice_len; lia).
    rewrite (slice_get_ok _ _ _ _ Hl0 Hlast).
    rewrite slice_set_ok
      by (unfold slice_len; rewrite length_app; simpl; lia).
    rewrite (set_index_ok _ _ _ _ _ Ha1). cbn [SyncRequest_ChainInfo].
    unfold reslice. cbn [self mem].
    assert ((0 <=? slice_len l)
            && (slice_len l <=? slice_len (<[Z.to_nat (slice_len l):=None]> (l ++ [Some a])))
            = true) as ->.
    { apply andb_true_intro. unfold slice_len.
      rewrite length_insert, length_app. simpl.
      split; apply Z.leb_le; lia. }
    rewrite take_insert_ge by lia.
    unfold slice_len. rewrite Nat2Z.id, take_app_length. done.
  - rewrite list_lookup_insert_eq; [done|]. unfold m1. by rewrite length_insert.
  - intros b Hb. unfold m1. by rewrite !list_lookup_insert_ne.
Qed.

Lemma rawQueue_Push_then_Pop_witness :
  rawQueue_Push (Some 1%nat) (World Scenarios.two_mem [Some 0%nat])
  = (Ret tt, World (<[1%nat := mkSyncRequest Examples.high (slice_len [Some 0%nat])]>
                      Scenarios.two_mem)
                   ([Some 0%nat] ++ [Some 1%nat])) /\
  exists m',
    (rawQueue_Push (Some 1%nat) ;;; rawQueue_Pop) (World Scenarios.two_mem [Some 0%nat])
    = (Ret (Some 1%nat), World m' [Some 0%nat]) /\
    m' !! 1%nat = Some (mkSyncRequest Examples.high (-1)) /\
    forall b, b <> 1%nat -> m' !! b = Scenarios.two_mem !! b.
Proof.
  apply (rawQueue_Push_then_Pop Scenarios.two_mem [Some 0%nat] 1%nat
           (mkSyncRequest Examples.high 1)).
  reflexivity.
Defined.
